(** * DelegateAsyncWait.h: blocking asynchronous delegates

    A shallow embedding of [DelegateMemberAsyncWait] / [DelegateFreeAsyncWait]
    (src/Delegate/DelegateAsyncWait.h).  The header expands one pattern for
    every arity N = 0..5, for member and free functions, with and without a
    return value.  The embedding is generic in the argument type [Param]
    ([unit] for N = 0, a tuple for N >= 2) and in the return type [RetType]
    ([unit] for the void specialisations, which have no result holder to
    copy into), and covers both families through the [Callable] sum.

    The two threads of one call (the caller inside [operator()], the target
    thread inside [DelegateInvoke]) are program-counter machines over a
    shared store; a schedule interleaves them. *)

From Stdlib Require Import ZArith Bool Lia.
From stdpp Require Import base option list gmap.

Set Implicit Arguments.
Local Open Scope Z_scope.

(** ** Synchronisation primitives *)

Inductive Tid := Caller | Target.

Definition Tid_eqb (x y : Tid) : bool :=
  match x, y with
  | Caller, Caller | Target, Target => true
  | _, _ => false
  end.

(** [LOCK m_lock]: free, or held by one thread. *)
Definition LOCK := option Tid.

(** [const int WAIT_INFINITE = -1;] *)
Definition WAIT_INFINITE : Z := -1.

(** Modelled from the spec: Semaphore.h is not part of the sources.  Spec 4.1:
    a counting wait signal; [reset()] clears any pending signal, [signal()]
    raises it and the signal persists until consumed, [wait(timeoutMs)] is
    true if signaled before the deadline and false on timeout. *)
Record Semaphore := mkSemaphore { sem_created : bool; sem_count : nat }.

Definition Semaphore_default : Semaphore := mkSemaphore false 0.

Definition Semaphore_Create (s : Semaphore) : Semaphore :=
  mkSemaphore true (sem_count s).

Definition Semaphore_Reset (s : Semaphore) : Semaphore :=
  mkSemaphore (sem_created s) 0.

Definition Semaphore_Signal (s : Semaphore) : Semaphore :=
  mkSemaphore (sem_created s) (S (sem_count s)).

(** [Wait expired timeout s]: [expired] is the scheduler's decision that the
    deadline passed.  [None] means the caller stays blocked.  An infinite
    wait never expires; an expired wait returns [false] and leaves a pending
    signal in place; otherwise a pending signal is consumed. *)
Definition Semaphore_Wait (expired : bool) (timeout : Z) (s : Semaphore)
  : option (bool * Semaphore) :=
  if expired then
    if decide (timeout = WAIT_INFINITE) then None else Some (false, s)
  else
    match sem_count s with
    | O => None
    | S n => Some (true, mkSemaphore (sem_created s) n)
    end.

(** ** Callable targets and delegates *)

(** Pointers are compared, never dereferenced by the delegate itself:
    [ObjectPtr], member-function and free-function pointers are identities. *)
Definition ObjectPtr := Z.
Definition FuncPtr := Z.

(** The [DelegateMember<...>] / [DelegateFree<...>] base sub-object. *)
Inductive Callable :=
| MemberFn (m_object : ObjectPtr) (m_func : FuncPtr)
| FreeFn (m_func : FuncPtr).

(** Modelled from the spec: [DelegateMember::operator==] and
    [DelegateFree::operator==] live in Delegate.h, which is not part of the
    sources.  Spec 3: "Equality is structural: same underlying object
    reference and same function identity".  A delegate of the other family
    fails the [dynamic_cast]. *)
Definition Callable_eqb (x y : Callable) : bool :=
  match x, y with
  | MemberFn o1 f1, MemberFn o2 f2 => (f1 =? f2) && (o1 =? o2)
  | FreeFn f1, FreeFn f2 => f1 =? f2
  | _, _ => false
  end.

(** What running one statement yields: a new state, nothing yet (the
    thread is blocked or has ended), or undefined behaviour. *)
Inductive Outcome (A : Type) :=
| Next (a : A)
| Blocked
| Fault.
Arguments Next {A} a.
Arguments Blocked {A}.
Arguments Fault {A}.

Section AsyncWait.

(** Template parameters. *)
Variable Param : Type.
Variable RetType : Type.

(** The program memory the bound functions act on. *)
Variable Mem : Type.

(** Modelled from the spec: [DelegateMember::operator()] and
    [DelegateFree::operator()] (Delegate.h, not part of the sources) call the
    bound function directly (spec 4.2 [invoke]).  [None]: the target is
    unbound, which the spec classes as an unchecked programming error. *)
Variable call : Callable -> Param -> Mem -> option (RetType * Mem).

(** [DelegateMemberAsyncWait<RetType(TClass(Param1))>]: the inherited
    callable, the six fields of the [...AsyncWaitBase] class and the result
    holder of the derived class.  [m_retVal] is [None] until first assigned
    (no constructor initialises it). *)
Record Delegate := mkDelegate {
  m_target : Callable;
  m_thread : Z;
  m_success : bool;
  m_timeout : Z;
  m_sema : Semaphore;
  m_lock : LOCK;
  m_refCnt : Z;
  m_retVal : option RetType
}.

Definition set_success (b : bool) (d : Delegate) : Delegate :=
  mkDelegate (m_target d) (m_thread d) b (m_timeout d)
             (m_sema d) (m_lock d) (m_refCnt d) (m_retVal d).

Definition set_sema (x : Semaphore) (d : Delegate) : Delegate :=
  mkDelegate (m_target d) (m_thread d) (m_success d) (m_timeout d)
             x (m_lock d) (m_refCnt d) (m_retVal d).

Definition set_lock (l : LOCK) (d : Delegate) : Delegate :=
  mkDelegate (m_target d) (m_thread d) (m_success d) (m_timeout d)
             (m_sema d) l (m_refCnt d) (m_retVal d).

Definition set_refCnt (n : Z) (d : Delegate) : Delegate :=
  mkDelegate (m_target d) (m_thread d) (m_success d) (m_timeout d)
             (m_sema d) (m_lock d) n (m_retVal d).

Definition set_retVal (r : option RetType) (d : Delegate) : Delegate :=
  mkDelegate (m_target d) (m_thread d) (m_success d) (m_timeout d)
             (m_sema d) (m_lock d) (m_refCnt d) r.

(** [DelegateMemberAsyncWaitBase(ObjectPtr, MemberFunc, DelegateThread*, int)]
    and the free-function counterpart: [m_success(false), m_timeout(timeout),
    m_refCnt(0)], then [Bind] and [LockGuard::Create]. *)
Definition construct (tgt : Callable) (thread timeout : Z) : Delegate :=
  mkDelegate tgt thread false timeout Semaphore_default None 0 None.

(** [void Swap(const DelegateMemberAsyncWaitBase& s)] *)
Definition Swap (s : Delegate) (this : Delegate) : Delegate :=
  mkDelegate (m_target this) (m_thread s) (m_success s) (m_timeout s)
             (m_sema this) (m_lock this) (m_refCnt this) (m_retVal this).

(** [DelegateMemberAsyncWaitBase(const DelegateMemberAsyncWaitBase& rhs) :
    DelegateMember<...>(rhs), m_refCnt(0) { LockGuard::Create(&m_lock);
    Swap(rhs); }].  The base sub-object is copied from [rhs], the semaphore
    is default-constructed and the lock is created; the three fields [Swap]
    assigns have no initialiser of their own, so what stands in their place
    before [Swap] is immaterial.  The result holder belongs to the derived
    class and is not set here. *)
Definition copy_base (rhs : Delegate) : Delegate :=
  Swap rhs (mkDelegate (m_target rhs) 0 false 0 Semaphore_default None 0 None).

(** [Clone() const]: a [new] copy of the object it is called on.  The
    derived class declares no copy constructor, so the compiler's
    member-wise one runs [copy_base] and copies [m_retVal]. *)
Definition Clone (this : Delegate) : Delegate :=
  set_retVal (m_retVal this) (copy_base this).

(** [void Bind(ObjectPtr object, MemberFunc func, DelegateThread* thread)
    { m_thread = thread; DelegateMember<...>::Bind(object, func); }] and the
    free-function counterpart. *)
Definition Bind (tgt : Callable) (thread : Z) (d : Delegate) : Delegate :=
  mkDelegate tgt thread (m_success d) (m_timeout d)
             (m_sema d) (m_lock d) (m_refCnt d) (m_retVal d).

(** [MakeDelegate(object, func, thread, timeout)] and
    [MakeDelegate(func, thread, timeout)] return the delegate their
    arguments construct. *)
Definition MakeDelegate (tgt : Callable) (thread timeout : Z) : Delegate :=
  construct tgt thread timeout.

(** [operator=(const DelegateMemberAsyncWaitBase& rhs) { if (&rhs != this)
    { DelegateMember<...>::operator=(rhs); Swap(rhs); } return *this; }];
    the derived class's [operator=] only forwards to it, so the result
    holder is not assigned.  [same] says that [rhs] is the very object
    assigned to.  (Modelled from the spec: [DelegateMember::operator=] is
    in Delegate.h, not part of the sources; it copies the bound object and
    function, spec 4.2.) *)
Definition assign (same : bool) (rhs this : Delegate) : Delegate :=
  if same then this
  else Swap rhs (mkDelegate (m_target rhs) (m_thread this) (m_success this)
                            (m_timeout this) (m_sema this) (m_lock this)
                            (m_refCnt this) (m_retVal this)).

(** [bool IsSuccess() { return m_success; }] *)
Definition IsSuccess (d : Delegate) : bool := m_success d.

(** [RetType GetRetVal() { return m_retVal; }] *)
Definition GetRetVal (d : Delegate) : option RetType := m_retVal d.

(** [operator==(const DelegateBase& rhs)]: [rhs] is a delegate of the same
    AsyncWait specialisation or of some other class ([None]), for which the
    [dynamic_cast] yields null. *)
Definition Delegate_eqb (this : Delegate) (rhs : option Delegate) : bool :=
  match rhs with
  | None => false
  | Some derivedRhs =>
      (m_thread this =? m_thread derivedRhs)
      && Callable_eqb (m_target this) (m_target derivedRhs)
  end.

(** Equality as the specification words it: two delegates are equal exactly
    when they have the same object and the same function. *)
Definition structural_equality (d1 d2 : Delegate) : Prop :=
  Delegate_eqb d1 (Some d2) = true <-> m_target d1 = m_target d2.

(** ** Messages *)

(** [DelegateMsg1<Param1>] ([DelegateMsgBase] for N = 0): the invoker and the
    argument copy. *)
Record Msg := mkMsg { msg_invoker : nat; msg_param : Param }.


(** ** The shared store and the two threads *)

(** What both threads can reach: the delegate [operator()] is called on, the
    heap of clones, the heap of messages, the message queue of the target
    thread and the memory of the bound functions. *)
Record Shared := mkShared {
  self : Delegate;
  heap : gmap nat Delegate;
  msgs : gmap nat Msg;
  queue : list nat;
  mem : Mem
}.

Definition with_self (d : Delegate) (sh : Shared) : Shared :=
  mkShared d (heap sh) (msgs sh) (queue sh) (mem sh).

Definition with_heap (h : gmap nat Delegate) (sh : Shared) : Shared :=
  mkShared (self sh) h (msgs sh) (queue sh) (mem sh).

Definition with_msgs (m : gmap nat Msg) (sh : Shared) : Shared :=
  mkShared (self sh) (heap sh) m (queue sh) (mem sh).

Definition with_queue (q : list nat) (sh : Shared) : Shared :=
  mkShared (self sh) (heap sh) (msgs sh) q (mem sh).

Definition with_mem (x : Mem) (sh : Shared) : Shared :=
  mkShared (self sh) (heap sh) (msgs sh) (queue sh) x.

(** What a step does, for the trace. *)
Inductive Action :=
| ADirect (p : Param) (r : RetType)
| AClone (a : nat)
| ASetRef (n : Z)
| ASemaCreate
| ASemaReset
| ANewMsg (m : nat)
| ADispatch (m : nat)
| AWait (ok : bool)
| ACopy (r : option RetType)
| ALock
| ADec (n : Z)
| AUnlock
| AFree
| AReturn (v : option RetType)
| ADequeue (m : nat)
| AGetParam (p : Param)
| ACheck (n : Z)
| AInvoke (p : Param) (r : RetType)
| AStore (r : RetType)
| ASignal.

(** *** The caller: [operator()(Param1 p1)] *)

Inductive CallerPc :=
| C_Entry | C_SetRef | C_SemaCreate | C_SemaReset | C_NewMsg | C_Dispatch
| C_Wait | C_Copy | C_Lock | C_Dec | C_Unlock | C_Delete | C_Return | C_Done.

(** The locals of [operator()]: its argument, [delegate], [msg],
    [deleteData] and the returned value once it has returned. *)
Record CallerSt := mkCaller {
  cpc : CallerPc;
  p1 : Param;
  delegate : nat;
  msg : nat;
  c_deleteData : bool;
  result : option (option RetType)
}.

Definition caller_at (pc : CallerPc) (c : CallerSt) : CallerSt :=
  mkCaller pc (p1 c) (delegate c) (msg c) (c_deleteData c) (result c).

(** One statement of [operator()].  [expired] only matters at the wait. *)
Definition caller_step (expired : bool) (sh : Shared) (c : CallerSt)
  : Outcome (Shared * CallerSt * Action) :=
  match cpc c with
  | C_Entry =>
      if decide (m_thread (self sh) = 0) then
        (* return DelegateMemberAsyncWaitBase<...>::operator()(p1); *)
        match call (m_target (self sh)) (p1 c) (mem sh) with
        | Some (r, mem') =>
            Next (with_mem mem' sh,
                  mkCaller C_Done (p1 c) (delegate c) (msg c) (c_deleteData c)
                           (Some (Some r)),
                  ADirect (p1 c) r)
        | None => Fault
        end
      else
        (* auto delegate = Clone(); *)
        let a := fresh (dom (heap sh)) in
        Next (with_heap (<[a := Clone (self sh)]> (heap sh)) sh,
              mkCaller C_SetRef (p1 c) a (msg c) (c_deleteData c) (result c),
              AClone a)
  | C_SetRef =>
      (* delegate->m_refCnt = 2; *)
      match heap sh !! delegate c with
      | Some d =>
          Next (with_heap (<[delegate c := set_refCnt 2 d]> (heap sh)) sh,
                caller_at C_SemaCreate c, ASetRef 2)
      | None => Fault
      end
  | C_SemaCreate =>
      (* delegate->m_sema.Create(); *)
      match heap sh !! delegate c with
      | Some d =>
          Next (with_heap
                  (<[delegate c := set_sema (Semaphore_Create (m_sema d)) d]>
                     (heap sh)) sh,
                caller_at C_SemaReset c, ASemaCreate)
      | None => Fault
      end
  | C_SemaReset =>
      (* delegate->m_sema.Reset(); *)
      match heap sh !! delegate c with
      | Some d =>
          Next (with_heap
                  (<[delegate c := set_sema (Semaphore_Reset (m_sema d)) d]>
                     (heap sh)) sh,
                caller_at C_NewMsg c, ASemaReset)
      | None => Fault
      end
  | C_NewMsg =>
      (* DelegateMsg1<Param1>* msg = new DelegateMsg1<Param1>(delegate, p1); *)
      let m := fresh (dom (msgs sh)) in
      Next (with_msgs (<[m := mkMsg (delegate c) (p1 c)]> (msgs sh)) sh,
            mkCaller C_Dispatch (p1 c) (delegate c) m (c_deleteData c)
                     (result c),
            ANewMsg m)
  | C_Dispatch =>
      (* this->m_thread->DispatchDelegate(msg); *)
      Next (with_queue (queue sh ++ [msg c]) sh, caller_at C_Wait c,
            ADispatch (msg c))
  | C_Wait =>
      (* if ((this->m_success = delegate->m_sema.Wait(this->m_timeout))) *)
      match heap sh !! delegate c with
      | Some d =>
          match Semaphore_Wait expired (m_timeout (self sh)) (m_sema d) with
          | Some (ok, sema') =>
              Next (with_self (set_success ok (self sh))
                      (with_heap (<[delegate c := set_sema sema' d]> (heap sh))
                                 sh),
                    caller_at (if ok then C_Copy else C_Lock) c, AWait ok)
          | None => Blocked
          end
      | None => Fault
      end
  | C_Copy =>
      (* m_retVal = delegate->m_retVal; *)
      match heap sh !! delegate c with
      | Some d =>
          Next (with_self (set_retVal (m_retVal d) (self sh)) sh,
                caller_at C_Lock c, ACopy (m_retVal d))
      | None => Fault
      end
  | C_Lock =>
      (* LockGuard lockGuard(&delegate->m_lock); *)
      match heap sh !! delegate c with
      | Some d =>
          match m_lock d with
          | None =>
              Next (with_heap (<[delegate c := set_lock (Some Caller) d]>
                                 (heap sh)) sh,
                    caller_at C_Dec c, ALock)
          | Some _ => Blocked
          end
      | None => Fault
      end
  | C_Dec =>
      (* if (--delegate->m_refCnt == 0) deleteData = true; *)
      match heap sh !! delegate c with
      | Some d =>
          let n := m_refCnt d - 1 in
          Next (with_heap (<[delegate c := set_refCnt n d]> (heap sh)) sh,
                mkCaller C_Unlock (p1 c) (delegate c) (msg c)
                         (if n =? 0 then true else c_deleteData c) (result c),
                ADec n)
      | None => Fault
      end
  | C_Unlock =>
      (* end of the LockGuard scope *)
      match heap sh !! delegate c with
      | Some d =>
          Next (with_heap (<[delegate c := set_lock None d]> (heap sh)) sh,
                caller_at (if c_deleteData c then C_Delete else C_Return) c,
                AUnlock)
      | None => Fault
      end
  | C_Delete =>
      (* delete msg; delete delegate;  the destructor destroys m_lock *)
      match msgs sh !! msg c, heap sh !! delegate c with
      | Some _, Some d =>
          match m_lock d with
          | None =>
              Next (with_msgs (delete (msg c) (msgs sh))
                      (with_heap (delete (delegate c) (heap sh)) sh),
                    caller_at C_Return c, AFree)
          | Some _ => Fault
          end
      | _, _ => Fault
      end
  | C_Return =>
      (* return m_retVal; *)
      Next (sh,
            mkCaller C_Done (p1 c) (delegate c) (msg c) (c_deleteData c)
                     (Some (m_retVal (self sh))),
            AReturn (m_retVal (self sh)))
  | C_Done => Blocked
  end.

(** *** The target thread: [DelegateInvoke(DelegateMsgBase** msg)] *)

Inductive TargetPc :=
| T_Idle | T_GetParam | T_Lock | T_Check | T_Invoke | T_Store | T_Signal
| T_Dec | T_Unlock | T_Delete | T_Done.

(** The locals of the target thread: the message taken from the queue, the
    invoker [this] it names, [param1], the value the bound function
    returned, and [deleteData]. *)
Record TargetSt := mkTarget {
  tpc : TargetPc;
  t_msg : nat;
  this : nat;
  param1 : option Param;
  t_ret : option RetType;
  t_deleteData : bool
}.

Definition target_at (pc : TargetPc) (t : TargetSt) : TargetSt :=
  mkTarget pc (t_msg t) (this t) (param1 t) (t_ret t) (t_deleteData t).

(** One statement of the target thread.  [T_Idle] is the thread's message
    loop (modelled from the spec 4.3: DelegateThread.h is not part of the
    sources; the envelope is handed to [DelegateInvoke] once). *)
Definition target_step (sh : Shared) (t : TargetSt)
  : Outcome (Shared * TargetSt * Action) :=
  match tpc t with
  | T_Idle =>
      match queue sh with
      | [] => Blocked
      | m :: q =>
          match msgs sh !! m with
          | Some e =>
              Next (with_queue q sh,
                    mkTarget T_GetParam m (msg_invoker e) (param1 t) (t_ret t)
                             (t_deleteData t),
                    ADequeue m)
          | None => Fault
          end
      end
  | T_GetParam =>
      (* Param1 param1 = delegateMsg->GetParam1(); *)
      match msgs sh !! t_msg t with
      | Some e =>
          Next (sh,
                mkTarget T_Lock (t_msg t) (this t) (Some (msg_param e))
                         (t_ret t) (t_deleteData t),
                AGetParam (msg_param e))
      | None => Fault
      end
  | T_Lock =>
      (* LockGuard lockGuard(&this->m_lock); *)
      match heap sh !! this t with
      | Some d =>
          match m_lock d with
          | None =>
              Next (with_heap (<[this t := set_lock (Some Target) d]> (heap sh))
                              sh,
                    target_at T_Check t, ALock)
          | Some _ => Blocked
          end
      | None => Fault
      end
  | T_Check =>
      (* if (this->m_refCnt == 2) *)
      match heap sh !! this t with
      | Some d =>
          Next (sh,
                target_at (if m_refCnt d =? 2 then T_Invoke else T_Dec) t,
                ACheck (m_refCnt d))
      | None => Fault
      end
  | T_Invoke =>
      (* DelegateMemberAsyncWaitBase<...>::operator()(param1) *)
      match heap sh !! this t, param1 t with
      | Some d, Some p =>
          match call (m_target d) p (mem sh) with
          | Some (r, mem') =>
              Next (with_mem mem' sh,
                    mkTarget T_Store (t_msg t) (this t) (param1 t) (Some r)
                             (t_deleteData t),
                    AInvoke p r)
          | None => Fault
          end
      | _, _ => Fault
      end
  | T_Store =>
      (* m_retVal = ... *)
      match heap sh !! this t, t_ret t with
      | Some d, Some r =>
          Next (with_heap (<[this t := set_retVal (Some r) d]> (heap sh)) sh,
                target_at T_Signal t, AStore r)
      | _, _ => Fault
      end
  | T_Signal =>
      (* this->m_sema.Signal(); *)
      match heap sh !! this t with
      | Some d =>
          Next (with_heap
                  (<[this t := set_sema (Semaphore_Signal (m_sema d)) d]>
                     (heap sh)) sh,
                target_at T_Dec t, ASignal)
      | None => Fault
      end
  | T_Dec =>
      (* if (--this->m_refCnt == 0) deleteData = true; *)
      match heap sh !! this t with
      | Some d =>
          let n := m_refCnt d - 1 in
          Next (with_heap (<[this t := set_refCnt n d]> (heap sh)) sh,
                mkTarget T_Unlock (t_msg t) (this t) (param1 t) (t_ret t)
                         (if n =? 0 then true else t_deleteData t),
                ADec n)
      | None => Fault
      end
  | T_Unlock =>
      (* end of the LockGuard scope *)
      match heap sh !! this t with
      | Some d =>
          Next (with_heap (<[this t := set_lock None d]> (heap sh)) sh,
                target_at (if t_deleteData t then T_Delete else T_Done) t,
                AUnlock)
      | None => Fault
      end
  | T_Delete =>
      (* delete *msg; *msg = 0; delete this; *)
      match msgs sh !! t_msg t, heap sh !! this t with
      | Some _, Some d =>
          match m_lock d with
          | None =>
              Next (with_msgs (delete (t_msg t) (msgs sh))
                      (with_heap (delete (this t) (heap sh)) sh),
                    target_at T_Done t, AFree)
          | Some _ => Fault
          end
      | _, _ => Fault
      end
  | T_Done => Blocked
  end.

(** ** Interleavings *)

(** An event: who acted, whether the actor held the clone's lock when it
    acted (it holds none before it knows the clone), and what it did. *)
Record Event := mkEvent { actor : Tid; locked : bool; act : Action }.

Record State := mkState {
  shared : Shared;
  caller : CallerSt;
  target : TargetSt;
  trace : list Event;
  faulted : bool
}.

(** Does [tid] hold the lock of the clone at [a]? *)
Definition holds (tid : Tid) (sh : Shared) (a : nat) : bool :=
  match heap sh !! a with
  | Some d => from_option (Tid_eqb tid) false (m_lock d)
  | None => false
  end.

Inductive Choice :=
| RunCaller (expired : bool)
| RunTarget.

Definition step (ch : Choice) (s : State) : Outcome State :=
  match ch with
  | RunCaller expired =>
      match caller_step expired (shared s) (caller s) with
      | Next (sh, c, a) =>
          Next (mkState sh c (target s)
                  (trace s ++
                     [mkEvent Caller
                        (match cpc (caller s) with
                         | C_Entry => false
                         | _ => holds Caller (shared s) (delegate (caller s))
                         end) a])
                  (faulted s))
      | Blocked => Blocked
      | Fault => Fault
      end
  | RunTarget =>
      match target_step (shared s) (target s) with
      | Next (sh, t, a) =>
          Next (mkState sh (caller s) t
                  (trace s ++
                     [mkEvent Target
                        (match tpc (target s) with
                         | T_Idle => false
                         | _ => holds Target (shared s) (this (target s))
                         end) a])
                  (faulted s))
      | Blocked => Blocked
      | Fault => Fault
      end
  end.

(** Run a schedule: a choice that is not enabled is skipped, a fault stops
    the run. *)
Fixpoint exec (sched : list Choice) (s : State) : State :=
  match sched with
  | [] => s
  | ch :: rest =>
      match step ch s with
      | Next s' => exec rest s'
      | Blocked => exec rest s
      | Fault => mkState (shared s) (caller s) (target s) (trace s) true
      end
  end.

(** The start of a call [d(arg)]: the caller is about to enter
    [operator()], the target thread is idle with an empty queue. *)
Definition init (d : Delegate) (h0 : gmap nat Delegate) (m0 : gmap nat Msg)
  (mem0 : Mem) (arg : Param) : State :=
  mkState (mkShared d h0 m0 [] mem0)
          (mkCaller C_Entry arg 0%nat 0%nat false None)
          (mkTarget T_Idle 0%nat 0%nat None None false)
          [] false.


(** ** The void specialisations

    [DelegateMemberAsyncWait<void(TClass(Param1))>] and its free-function
    counterpart have no result holder.  Their [operator()] records the
    outcome of the wait and copies nothing; their [DelegateInvoke] calls
    the bound function and stores nothing.  Every other statement is that
    of the value-returning class. *)

Definition caller_step_void (expired : bool) (sh : Shared) (c : CallerSt)
  : Outcome (Shared * CallerSt * Action) :=
  match cpc c with
  | C_Entry =>
      if decide (m_thread (self sh) = 0) then
        (* DelegateMemberAsyncWaitBase<void(...)>::operator()(p1); *)
        match call (m_target (self sh)) (p1 c) (mem sh) with
        | Some (r, mem') =>
            Next (with_mem mem' sh,
                  mkCaller C_Done (p1 c) (delegate c) (msg c) (c_deleteData c)
                           (Some None),
                  ADirect (p1 c) r)
        | None => Fault
        end
      else
        (* auto delegate = Clone(); *)
        let a := fresh (dom (heap sh)) in
        Next (with_heap (<[a := Clone (self sh)]> (heap sh)) sh,
              mkCaller C_SetRef (p1 c) a (msg c) (c_deleteData c) (result c),
              AClone a)
  | C_Wait =>
      (* this->m_success = delegate->m_sema.Wait(this->m_timeout); *)
      match heap sh !! delegate c with
      | Some d =>
          match Semaphore_Wait expired (m_timeout (self sh)) (m_sema d) with
          | Some (ok, sema') =>
              Next (with_self (set_success ok (self sh))
                      (with_heap (<[delegate c := set_sema sema' d]> (heap sh))
                                 sh),
                    caller_at C_Lock c, AWait ok)
          | None => Blocked
          end
      | None => Fault
      end
  | C_Copy =>
      (* the void operator() has no statement here: never reached *)
      Blocked
  | C_Return =>
      (* the end of the function *)
      Next (sh,
            mkCaller C_Done (p1 c) (delegate c) (msg c) (c_deleteData c)
                     (Some None),
            AReturn None)
  | _ => caller_step expired sh c
  end.

Definition target_step_void (sh : Shared) (t : TargetSt)
  : Outcome (Shared * TargetSt * Action) :=
  match tpc t with
  | T_Invoke =>
      (* DelegateMemberAsyncWaitBase<void(...)>::operator()(param1); *)
      match heap sh !! this t, param1 t with
      | Some d, Some p =>
          match call (m_target d) p (mem sh) with
          | Some (r, mem') =>
              Next (with_mem mem' sh, target_at T_Signal t, AInvoke p r)
          | None => Fault
          end
      | _, _ => Fault
      end
  | T_Store =>
      (* the void DelegateInvoke has no statement here: never reached *)
      Blocked
  | _ => target_step sh t
  end.

Definition step_void (ch : Choice) (s : State) : Outcome State :=
  match ch with
  | RunCaller expired =>
      match caller_step_void expired (shared s) (caller s) with
      | Next (sh, c, a) =>
          Next (mkState sh c (target s)
                  (trace s ++
                     [mkEvent Caller
                        (match cpc (caller s) with
                         | C_Entry => false
                         | _ => holds Caller (shared s) (delegate (caller s))
                         end) a])
                  (faulted s))
      | Blocked => Blocked
      | Fault => Fault
      end
  | RunTarget =>
      match target_step_void (shared s) (target s) with
      | Next (sh, t, a) =>
          Next (mkState sh (caller s) t
                  (trace s ++
                     [mkEvent Target
                        (match tpc (target s) with
                         | T_Idle => false
                         | _ => holds Target (shared s) (this (target s))
                         end) a])
                  (faulted s))
      | Blocked => Blocked
      | Fault => Fault
      end
  end.

Fixpoint exec_void (sched : list Choice) (s : State) : State :=
  match sched with
  | [] => s
  | ch :: rest =>
      match step_void ch s with
      | Next s' => exec_void rest s'
      | Blocked => exec_void rest s
      | Fault => mkState (shared s) (caller s) (target s) (trace s) true
      end
  end.

(** ** Free-function delegates that lock first

    [DelegateFreeAsyncWait<RetType(Param1)>::DelegateInvoke] and the one of
    [DelegateFreeAsyncWait<RetType(Param1, Param2)>] open with the
    [LockGuard] and read the arguments of the message inside its scope
    (so does [DelegateFreeAsyncWait<void(Param1)>], which stores no
    result); all other specialisations read the arguments first.  The
    statements are the same, two of them change places. *)

Definition target_step_free (sh : Shared) (t : TargetSt)
  : Outcome (Shared * TargetSt * Action) :=
  match tpc t with
  | T_Idle =>
      match queue sh with
      | [] => Blocked
      | m :: q =>
          match msgs sh !! m with
          | Some e =>
              Next (with_queue q sh,
                    mkTarget T_Lock m (msg_invoker e) (param1 t) (t_ret t)
                             (t_deleteData t),
                    ADequeue m)
          | None => Fault
          end
      end
  | T_Lock =>
      (* LockGuard lockGuard(&this->m_lock); *)
      match heap sh !! this t with
      | Some d =>
          match m_lock d with
          | None =>
              Next (with_heap (<[this t := set_lock (Some Target) d]> (heap sh))
                              sh,
                    target_at T_GetParam t, ALock)
          | Some _ => Blocked
          end
      | None => Fault
      end
  | T_GetParam =>
      (* Param1 param1 = delegateMsg->GetParam1(); *)
      match msgs sh !! t_msg t with
      | Some e =>
          Next (sh,
                mkTarget T_Check (t_msg t) (this t) (Some (msg_param e))
                         (t_ret t) (t_deleteData t),
                AGetParam (msg_param e))
      | None => Fault
      end
  | _ => target_step sh t
  end.

Definition step_free (ch : Choice) (s : State) : Outcome State :=
  match ch with
  | RunCaller expired =>
      match caller_step expired (shared s) (caller s) with
      | Next (sh, c, a) =>
          Next (mkState sh c (target s)
                  (trace s ++
                     [mkEvent Caller
                        (match cpc (caller s) with
                         | C_Entry => false
                         | _ => holds Caller (shared s) (delegate (caller s))
                         end) a])
                  (faulted s))
      | Blocked => Blocked
      | Fault => Fault
      end
  | RunTarget =>
      match target_step_free (shared s) (target s) with
      | Next (sh, t, a) =>
          Next (mkState sh (caller s) t
                  (trace s ++
                     [mkEvent Target
                        (match tpc (target s) with
                         | T_Idle => false
                         | _ => holds Target (shared s) (this (target s))
                         end) a])
                  (faulted s))
      | Blocked => Blocked
      | Fault => Fault
      end
  end.

Fixpoint exec_free (sched : list Choice) (s : State) : State :=
  match sched with
  | [] => s
  | ch :: rest =>
      match step_free ch s with
      | Next s' => exec_free rest s'
      | Blocked => exec_free rest s
      | Fault => mkState (shared s) (caller s) (target s) (trace s) true
      end
  end.

(** The arguments of the message are read, and they are read by a thread
    that does not hold the lock of the clone. *)
Definition is_read (e : Event) : bool :=
  match act e with AGetParam _ => true | _ => false end.

Definition is_unlocked_read (e : Event) : bool :=
  match act e with AGetParam _ => negb (locked e) | _ => false end.

(** The wait of the caller has returned true. *)
Definition is_true_wait (e : Event) : bool :=
  match act e with AWait ok => ok | _ => false end.

(** [DelegateFreeAsyncWait<void(Param1)>]: the void [operator()], and a
    [DelegateInvoke] that takes the lock first and stores no result. *)
Definition target_step_free_void (sh : Shared) (t : TargetSt)
  : Outcome (Shared * TargetSt * Action) :=
  match tpc t with
  | T_Invoke | T_Store => target_step_void sh t
  | _ => target_step_free sh t
  end.

Definition step_free_void (ch : Choice) (s : State) : Outcome State :=
  match ch with
  | RunCaller expired =>
      match caller_step_void expired (shared s) (caller s) with
      | Next (sh, c, a) =>
          Next (mkState sh c (target s)
                  (trace s ++
                     [mkEvent Caller
                        (match cpc (caller s) with
                         | C_Entry => false
                         | _ => holds Caller (shared s) (delegate (caller s))
                         end) a])
                  (faulted s))
      | Blocked => Blocked
      | Fault => Fault
      end
  | RunTarget =>
      match target_step_free_void (shared s) (target s) with
      | Next (sh, t, a) =>
          Next (mkState sh (caller s) t
                  (trace s ++
                     [mkEvent Target
                        (match tpc (target s) with
                         | T_Idle => false
                         | _ => holds Target (shared s) (this (target s))
                         end) a])
                  (faulted s))
      | Blocked => Blocked
      | Fault => Fault
      end
  end.

Fixpoint exec_free_void (sched : list Choice) (s : State) : State :=
  match sched with
  | [] => s
  | ch :: rest =>
      match step_free_void ch s with
      | Next s' => exec_free_void rest s'
      | Blocked => exec_free_void rest s
      | Fault => mkState (shared s) (caller s) (target s) (trace s) true
      end
  end.

(** [operator()] has returned and [DelegateInvoke] has returned. *)
Definition finished (s : State) : Prop :=
  cpc (caller s) = C_Done /\ tpc (target s) = T_Done.

(** *** Reading a trace *)

(** The bound function is called: directly on the caller's thread, or by
    [DelegateInvoke] on the target thread. *)
Definition is_invocation (e : Event) : bool :=
  match act e with
  | ADirect _ _ | AInvoke _ _ => true
  | _ => false
  end.

Definition is_dec_by (tid : Tid) (e : Event) : bool :=
  Tid_eqb (actor e) tid
  && match act e with ADec _ => true | _ => false end.

Definition is_free (e : Event) : bool :=
  match act e with AFree => true | _ => false end.

Definition is_copy (e : Event) : bool :=
  match act e with ACopy _ => true | _ => false end.

Definition count (f : Event -> bool) (tr : list Event) : nat :=
  length (List.filter f tr).

(** The decrements of the reference count and the execute-or-skip decision
    with what it guards. *)
Definition in_critical_section (a : Action) : bool :=
  match a with
  | ACheck _ | AInvoke _ _ | AStore _ | ASignal | ADec _ => true
  | _ => false
  end.

(** The accesses to the mutable fields of the clone: [m_refCnt], [m_sema],
    [m_retVal]. *)
Definition touches_clone (a : Action) : bool :=
  match a with
  | ASetRef _ | ASemaCreate | ASemaReset | AWait _ | ACopy _
  | ACheck _ | AStore _ | ASignal | ADec _ => true
  | _ => false
  end.

(** What the caller does to the clone without taking its lock. *)
Definition caller_unlocked_access (a : Action) : bool :=
  match a with
  | ASetRef _ | ASemaCreate | ASemaReset | AWait _ | ACopy _ => true
  | _ => false
  end.

(** The lock discipline as the specification words it: every access to a
    mutable field of the clone is made under the clone's lock, and the lock
    is released before the clone is freed. *)
Definition lock_discipline (tr : list Event) : Prop :=
  (forall e, In e tr -> touches_clone (act e) = true -> locked e = true)
  /\ (forall e, In e tr -> is_free e = true -> locked e = false).

(** ** Two callers through one delegate

    Two threads call [operator()] on the same delegate object; the target
    thread returns to its message loop after each [DelegateInvoke]. *)
Record State2 := mkState2 {
  shared2 : Shared;
  callerA : CallerSt;
  callerB : CallerSt;
  target2 : TargetSt
}.

Inductive Choice2 :=
| RunA (expired : bool)
| RunB (expired : bool)
| RunT.

Definition step2 (ch : Choice2) (s : State2) : Outcome State2 :=
  match ch with
  | RunA expired =>
      match caller_step expired (shared2 s) (callerA s) with
      | Next (sh, c, _) => Next (mkState2 sh c (callerB s) (target2 s))
      | Blocked => Blocked
      | Fault => Fault
      end
  | RunB expired =>
      match caller_step expired (shared2 s) (callerB s) with
      | Next (sh, c, _) => Next (mkState2 sh (callerA s) c (target2 s))
      | Blocked => Blocked
      | Fault => Fault
      end
  | RunT =>
      match tpc (target2 s) with
      | T_Done =>
          Next (mkState2 (shared2 s) (callerA s) (callerB s)
                         (mkTarget T_Idle 0%nat 0%nat None None false))
      | _ =>
          match target_step (shared2 s) (target2 s) with
          | Next (sh, t, _) => Next (mkState2 sh (callerA s) (callerB s) t)
          | Blocked => Blocked
          | Fault => Fault
          end
      end
  end.

Fixpoint exec2 (sched : list Choice2) (s : State2) : option State2 :=
  match sched with
  | [] => Some s
  | ch :: rest =>
      match step2 ch s with
      | Next s' => exec2 rest s'
      | Blocked => exec2 rest s
      | Fault => None
      end
  end.

Definition init2 (d : Delegate) (mem0 : Mem) (argA argB : Param) : State2 :=
  mkState2 (mkShared d ∅ ∅ [] mem0)
           (mkCaller C_Entry argA 0%nat 0%nat false None)
           (mkCaller C_Entry argB 0%nat 0%nat false None)
           (mkTarget T_Idle 0%nat 0%nat None None false).

(** The schedule without the second caller's steps. *)
Definition without_B (sched : list Choice2) : list Choice2 :=
  List.filter (fun ch => match ch with RunB _ => false | _ => true end) sched.

(** "Concurrent Invokes through the same delegate share no per-call state",
    read on what a call hands back: what the first call returns is the same
    with and without the steps of the second. *)
Definition calls_independent (d : Delegate) (mem0 : Mem) (argA argB : Param)
  : Prop :=
  forall sched s s',
    exec2 sched (init2 d mem0 argA argB) = Some s ->
    exec2 (without_B sched) (init2 d mem0 argA argB) = Some s' ->
    cpc (callerA s) = C_Done -> cpc (callerA s') = C_Done ->
    result (callerA s) = result (callerA s').

(** "If the wait succeeds, IsSuccess() is true after Invoke returns and
    GetRetVal() and the value returned are the value the callable computed
    for the given arguments", read on the first of two callers: [waited]
    takes it to the point where its wait has returned true (it stands at
    the copy of the result), [rest] takes it to its return; [r] is what
    the callable computes for its argument. *)
Definition success_gives_own_result (d : Delegate) (mem0 : Mem)
  (argA argB : Param) : Prop :=
  forall waited rest s1 s r m m',
    exec2 waited (init2 d mem0 argA argB) = Some s1 ->
    cpc (callerA s1) = C_Copy ->
    exec2 rest s1 = Some s ->
    cpc (callerA s) = C_Done ->
    call (m_target d) argA m = Some (r, m') ->
    IsSuccess (self (shared2 s)) = true
    /\ GetRetVal (self (shared2 s)) = Some r
    /\ result (callerA s) = Some (Some r).

(** "If the wait times out, Invoke returns with IsSuccess() false", read on
    the first of two callers: after [waiting] it stands at its wait, the
    wait returns false (its next statement is the lock, not the copy), and
    [rest] takes it to its return. *)
Definition timeout_gives_failure (d : Delegate) (mem0 : Mem)
  (argA argB : Param) : Prop :=
  forall waiting b rest s1 s2 s,
    exec2 waiting (init2 d mem0 argA argB) = Some s1 ->
    cpc (callerA s1) = C_Wait ->
    step2 (RunA b) s1 = Next s2 ->
    cpc (callerA s2) = C_Lock ->
    exec2 rest s2 = Some s ->
    cpc (callerA s) = C_Done ->
    IsSuccess (self (shared2 s)) = false.

(** ** The states one call can reach

    With the pointers the two threads are at, the outcome of the wait and
    the value the bound function returned (if it ran), the whole state of
    a threaded call is determined.  [Inv] says so; it is the invariant all
    results about threaded calls rest on. *)

Definition crank (k : CallerPc) : nat :=
  match k with
  | C_Entry => 0 | C_SetRef => 1 | C_SemaCreate => 2 | C_SemaReset => 3
  | C_NewMsg => 4 | C_Dispatch => 5 | C_Wait => 6 | C_Copy => 7
  | C_Lock => 8 | C_Dec => 9 | C_Unlock => 10 | C_Delete => 11
  | C_Return => 12 | C_Done => 13
  end%nat.

Definition trank (j : TargetPc) : nat :=
  match j with
  | T_Idle => 0 | T_GetParam => 1 | T_Lock => 2 | T_Check => 3
  | T_Invoke => 4 | T_Store => 5 | T_Signal => 6 | T_Dec => 7
  | T_Unlock => 8 | T_Delete => 9 | T_Done => 10
  end%nat.

(** Steps left at most: the distance of both threads from their end. *)
Definition fuel_of (s : State) : nat :=
  ((13 - crank (cpc (caller s))) + (10 - trank (tpc (target s))))%nat.

Definition cge (n : nat) (k : CallerPc) : bool := Nat.leb n (crank k).
Definition tge (n : nat) (j : TargetPc) : bool := Nat.leb n (trank j).

(** The caller holds the lock at [C_Dec] and [C_Unlock], the target from
    [T_Check] to [T_Unlock]. *)
Definition c_in_lock (k : CallerPc) : bool := cge 9 k && negb (cge 11 k).
Definition t_in_lock (j : TargetPc) : bool := tge 3 j && negb (tge 9 j).

(** Which (caller pc, target pc, wait result, function ran) can occur. *)
Definition reachb (k : CallerPc) (j : TargetPc) (ok e : bool) : bool :=
  (implb (tge 1 j) (cge 6 k))
  && negb (c_in_lock k && t_in_lock j)
  && (implb e (tge 5 j))
  && (implb (tge 5 j && negb (tge 7 j)) e)
  && (implb (tge 4 j && negb (tge 9 j) && (e || negb (tge 5 j)))
            (negb (cge 9 k)))
  && (implb (tge 7 j && negb e) (cge 11 k))
  && (implb (cge 7 k && (ok || negb (cge 8 k))) (ok && e && tge 7 j))
  && (implb (cge 11 k && negb (cge 12 k)) e)
  && (implb (tge 9 j && negb (tge 10 j)) (negb e)).

(** Did the bound function run? *)
Definition ran (ex : option RetType) : bool :=
  match ex with Some _ => true | None => false end.

(** The clone and its message have been freed. *)
Definition freedb (k : CallerPc) (j : TargetPc) (e : bool) : bool :=
  (cge 12 k && e) || (tge 10 j && negb e).

Section Call.

(** The delegate the call goes through, the clones and messages of other
    calls, the memory and the argument at the start of the call. *)
Variable d0 : Delegate.
Variable h0 : gmap nat Delegate.
Variable m0 : gmap nat Msg.
Variable mem0 : Mem.
Variable arg : Param.

(** The addresses [Clone()] and [new DelegateMsg1] return. *)
Definition a0 : nat := fresh (dom h0).
Definition mm : nat := fresh (dom m0).

Definition heap_of (o : option Delegate) : gmap nat Delegate :=
  match o with Some d => <[a0 := d]> h0 | None => h0 end.

Definition msgs_of (o : option Msg) : gmap nat Msg :=
  match o with Some e => <[mm := e]> m0 | None => m0 end.

Definition clone_at (k : CallerPc) (j : TargetPc) (ok : bool)
  (ex : option RetType) : Delegate :=
  mkDelegate
    (m_target d0) (m_thread d0) (m_success d0) (m_timeout d0)
    (mkSemaphore (cge 3 k)
       (if tge 7 j && ran ex && negb (cge 7 k && ok)
        then 1%nat else 0%nat))
    (if c_in_lock k then Some Caller
     else if t_in_lock j then Some Target else None)
    (if cge 2 k
     then 2 - (if cge 10 k then 1 else 0) - (if tge 8 j then 1 else 0)
     else 0)
    (if tge 6 j then from_option Some (m_retVal d0) ex else m_retVal d0).

Definition self_at (k : CallerPc) (ok : bool) (ex : option RetType)
  : Delegate :=
  if cge 7 k
  then set_retVal (if ok && cge 8 k then ex else m_retVal d0)
                  (set_success ok d0)
  else d0.

Definition shared_at (k : CallerPc) (j : TargetPc) (ok : bool)
  (ex : option RetType) (x : Mem) : Shared :=
  let e := ran ex in
  mkShared
    (self_at k ok ex)
    (heap_of (if cge 1 k && negb (freedb k j e)
              then Some (clone_at k j ok ex) else None))
    (msgs_of (if cge 5 k && negb (freedb k j e)
              then Some (mkMsg a0 arg) else None))
    (if cge 6 k && negb (tge 1 j) then [mm] else [])
    x.

Definition caller_at_pc (k : CallerPc) (ok : bool) (ex : option RetType)
  : CallerSt :=
  mkCaller k arg
    (if cge 1 k then a0 else 0%nat)
    (if cge 5 k then mm else 0%nat)
    (cge 10 k && ran ex)
    (if cge 13 k then Some (m_retVal (self_at k ok ex)) else None).

Definition target_at_pc (j : TargetPc) (ex : option RetType) : TargetSt :=
  mkTarget j
    (if tge 1 j then mm else 0%nat)
    (if tge 1 j then a0 else 0%nat)
    (if tge 2 j then Some arg else None)
    ex
    (tge 8 j && negb (ran ex)).

(** The memory: untouched until the bound function runs, then what its one
    run on [arg] left. *)
Definition mem_ok (ex : option RetType) (x : Mem) : Prop :=
  match ex with
  | Some r => call (m_target d0) arg mem0 = Some (r, x)
  | None => x = mem0
  end.

(** *** What each thread has done so far *)

Definition cev (l : bool) (a : Action) : Event := mkEvent Caller l a.
Definition tev (l : bool) (a : Action) : Event := mkEvent Target l a.

Definition c_setup : list Event :=
  [cev false (AClone a0); cev false (ASetRef 2); cev false ASemaCreate;
   cev false ASemaReset; cev false (ANewMsg mm); cev false (ADispatch mm)].

Definition c_waited (ok : bool) (ex : option RetType) : list Event :=
  cev false (AWait ok) :: (if ok then [cev false (ACopy ex)] else []).

Definition c_release (e : bool) : list Event :=
  [cev false ALock; cev true (ADec (if e then 0 else 1)); cev true AUnlock]
  ++ (if e then [cev false AFree] else []).

(** The caller's events of a complete threaded call. *)
Definition c_script (ok : bool) (ex : option RetType) : list Event :=
  c_setup ++ c_waited ok ex ++ c_release (ran ex)
  ++ [cev false (AReturn (if ok then ex else m_retVal d0))].

Definition chist (k : CallerPc) (ok : bool) (ex : option RetType)
  : list Event :=
  match k with
  | C_Copy => c_setup ++ [cev false (AWait true)]
  | C_Lock => c_setup ++ c_waited ok ex
  | C_Dec => c_setup ++ c_waited ok ex ++ [cev false ALock]
  | C_Unlock =>
      c_setup ++ c_waited ok ex
      ++ [cev false ALock;
          cev true (ADec (if ran ex then 0 else 1))]
  | C_Delete =>
      c_setup ++ c_waited ok ex
      ++ [cev false ALock; cev true (ADec 0); cev true AUnlock]
  | C_Return =>
      c_setup ++ c_waited ok ex ++ c_release (ran ex)
  | C_Done => c_script ok ex
  | _ => take (crank k) c_setup
  end.

Definition t_setup : list Event :=
  [tev false (ADequeue mm); tev false (AGetParam arg); tev false ALock].

(** The target's events when it finds the count at 2 ... *)
Definition t_run (r : RetType) : list Event :=
  [tev true (ACheck 2); tev true (AInvoke arg r); tev true (AStore r);
   tev true ASignal; tev true (ADec 1); tev true AUnlock].

(** ... and when it does not. *)
Definition t_skip : list Event :=
  [tev true (ACheck 1); tev true (ADec 0); tev true AUnlock;
   tev false AFree].

(** The target's events of a complete call. *)
Definition t_script (ex : option RetType) : list Event :=
  t_setup ++ match ex with Some r => t_run r | None => t_skip end.

Definition thist (j : TargetPc) (ex : option RetType) : list Event :=
  match j, ex with
  | T_Invoke, _ => t_setup ++ [tev true (ACheck 2)]
  | T_Store, Some r => t_setup ++ take 2 (t_run r)
  | T_Signal, Some r => t_setup ++ take 3 (t_run r)
  | T_Dec, Some r => t_setup ++ take 4 (t_run r)
  | T_Unlock, Some r => t_setup ++ take 5 (t_run r)
  | T_Done, Some r => t_setup ++ t_run r
  | T_Dec, None => t_setup ++ take 1 t_skip
  | T_Unlock, None => t_setup ++ take 2 t_skip
  | T_Delete, None => t_setup ++ take 3 t_skip
  | T_Done, None => t_setup ++ t_skip
  | _, _ => take (trank j) t_setup
  end.

Definition by_actor (tid : Tid) (tr : list Event) : list Event :=
  List.filter (fun e => Tid_eqb (actor e) tid) tr.

(** Where a call through a delegate with no target thread ends: the bound
    function has run on the caller's thread, returned [r] and left the
    memory [x]. *)
Definition direct_done (r : RetType) (x : Mem) : State :=
  mkState (mkShared d0 h0 m0 [] x)
          (mkCaller C_Done arg 0%nat 0%nat false (Some (Some r)))
          (mkTarget T_Idle 0%nat 0%nat None None false)
          [mkEvent Caller false (ADirect arg r)] false.

(** The invariant of a threaded call. *)
Record Inv (s : State) : Prop := mkInv {
  inv_reach :
    reachb (cpc (caller s)) (tpc (target s))
           (m_success (self (shared s)))
           (ran (t_ret (target s))) = true;
  inv_mem : mem_ok (t_ret (target s)) (mem (shared s));
  inv_shared :
    shared s = shared_at (cpc (caller s)) (tpc (target s))
                 (m_success (self (shared s))) (t_ret (target s))
                 (mem (shared s));
  inv_caller :
    caller s = caller_at_pc (cpc (caller s)) (m_success (self (shared s)))
                 (t_ret (target s));
  inv_target : target s = target_at_pc (tpc (target s)) (t_ret (target s));
  inv_chist :
    by_actor Caller (trace s)
    = chist (cpc (caller s)) (m_success (self (shared s)))
            (t_ret (target s));
  inv_thist :
    by_actor Target (trace s) = thist (tpc (target s)) (t_ret (target s))
}.

(** *** The states a call of a void delegate can reach *)

Definition clone_at_void (k : CallerPc) (j : TargetPc) (ok e : bool)
  : Delegate :=
  mkDelegate
    (m_target d0) (m_thread d0) (m_success d0) (m_timeout d0)
    (mkSemaphore (cge 3 k)
       (if tge 7 j && e && negb (cge 7 k && ok) then 1%nat else 0%nat))
    (if c_in_lock k then Some Caller
     else if t_in_lock j then Some Target else None)
    (if cge 2 k
     then 2 - (if cge 10 k then 1 else 0) - (if tge 8 j then 1 else 0)
     else 0)
    (m_retVal d0).

Definition shared_at_void (k : CallerPc) (j : TargetPc) (ok e : bool)
  (x : Mem) : Shared :=
  mkShared
    (if cge 7 k then set_success ok d0 else d0)
    (heap_of (if cge 1 k && negb (freedb k j e)
              then Some (clone_at_void k j ok e) else None))
    (msgs_of (if cge 5 k && negb (freedb k j e)
              then Some (mkMsg a0 arg) else None))
    (if cge 6 k && negb (tge 1 j) then [mm] else [])
    x.

Definition caller_at_pc_void (k : CallerPc) (e : bool) : CallerSt :=
  mkCaller k arg
    (if cge 1 k then a0 else 0%nat)
    (if cge 5 k then mm else 0%nat)
    (cge 10 k && e)
    (if cge 13 k then Some None else None).

Definition target_at_pc_void (j : TargetPc) (e : bool) : TargetSt :=
  mkTarget j
    (if tge 1 j then mm else 0%nat)
    (if tge 1 j then a0 else 0%nat)
    (if tge 2 j then Some arg else None)
    None
    (tge 8 j && negb e).

(** Has the bound function run?  The void [DelegateInvoke] keeps no trace
    of it in its locals; the program counters and [deleteData] tell. *)
Definition ran_void (k : CallerPc) (j : TargetPc) (td : bool) : bool :=
  match j with
  | T_Signal => true
  | T_Dec => negb (cge 9 k)
  | T_Unlock | T_Delete | T_Done => negb td
  | _ => false
  end.

Definition reachb_void (k : CallerPc) (j : TargetPc) (ok e : bool) : bool :=
  reachb k j ok e
  && match k with C_Copy => false | _ => true end
  && match j with T_Store => false | _ => true end.

Record InvVoid (s : State) : Prop := mkInvVoid {
  invv_reach :
    reachb_void (cpc (caller s)) (tpc (target s))
      (m_success (self (shared s)))
      (ran_void (cpc (caller s)) (tpc (target s))
                (t_deleteData (target s))) = true;
  invv_mem :
    if ran_void (cpc (caller s)) (tpc (target s)) (t_deleteData (target s))
    then exists r, call (m_target d0) arg mem0 = Some (r, mem (shared s))
    else mem (shared s) = mem0;
  invv_shared :
    shared s
    = shared_at_void (cpc (caller s)) (tpc (target s))
        (m_success (self (shared s)))
        (ran_void (cpc (caller s)) (tpc (target s))
                  (t_deleteData (target s)))
        (mem (shared s));
  invv_caller :
    caller s
    = caller_at_pc_void (cpc (caller s))
        (ran_void (cpc (caller s)) (tpc (target s))
                  (t_deleteData (target s)));
  invv_target :
    target s
    = target_at_pc_void (tpc (target s))
        (ran_void (cpc (caller s)) (tpc (target s))
                  (t_deleteData (target s)));
  invv_calls :
    count is_invocation (trace s)
    = if ran_void (cpc (caller s)) (tpc (target s))
           (t_deleteData (target s))
      then 1%nat else 0%nat;
  invv_frees :
    count is_free (trace s)
    = if freedb (cpc (caller s)) (tpc (target s))
           (ran_void (cpc (caller s)) (tpc (target s))
                     (t_deleteData (target s)))
      then 1%nat else 0%nat;
  invv_waits :
    count is_true_wait (trace s)
    = if cge 8 (cpc (caller s)) && m_success (self (shared s))
      then 1%nat else 0%nat
}.

(** Where a call through a void delegate with no target thread ends. *)
Definition direct_done_void (r : RetType) (x : Mem) : State :=
  mkState (mkShared d0 h0 m0 [] x)
          (mkCaller C_Done arg 0%nat 0%nat false (Some None))
          (mkTarget T_Idle 0%nat 0%nat None None false)
          [mkEvent Caller false (ADirect arg r)] false.

(** *** The states a call can reach when [DelegateInvoke] locks first *)

Definition trank_free (j : TargetPc) : nat :=
  match j with
  | T_Lock => 1 | T_GetParam => 2 | _ => trank j
  end%nat.

Definition fuel_free (s : State) : nat :=
  ((13 - crank (cpc (caller s))) + (10 - trank_free (tpc (target s))))%nat.

(** The target holds the lock from [T_GetParam] to [T_Unlock]. *)
Definition t_in_lock_free (j : TargetPc) : bool :=
  match j with
  | T_GetParam => true
  | T_Lock => false
  | _ => t_in_lock j
  end.

Definition reachb_free (k : CallerPc) (j : TargetPc) (ok e : bool) : bool :=
  reachb k j ok e && negb (c_in_lock k && t_in_lock_free j).

Definition clone_at_free (k : CallerPc) (j : TargetPc) (ok : bool)
  (ex : option RetType) : Delegate :=
  mkDelegate
    (m_target d0) (m_thread d0) (m_success d0) (m_timeout d0)
    (mkSemaphore (cge 3 k)
       (if tge 7 j && ran ex && negb (cge 7 k && ok)
        then 1%nat else 0%nat))
    (if c_in_lock k then Some Caller
     else if t_in_lock_free j then Some Target else None)
    (if cge 2 k
     then 2 - (if cge 10 k then 1 else 0) - (if tge 8 j then 1 else 0)
     else 0)
    (if tge 6 j then from_option Some (m_retVal d0) ex else m_retVal d0).

Definition shared_at_free (k : CallerPc) (j : TargetPc) (ok : bool)
  (ex : option RetType) (x : Mem) : Shared :=
  let e := ran ex in
  mkShared
    (self_at k ok ex)
    (heap_of (if cge 1 k && negb (freedb k j e)
              then Some (clone_at_free k j ok ex) else None))
    (msgs_of (if cge 5 k && negb (freedb k j e)
              then Some (mkMsg a0 arg) else None))
    (if cge 6 k && negb (tge 1 j) then [mm] else [])
    x.

Definition target_at_pc_free (j : TargetPc) (ex : option RetType)
  : TargetSt :=
  mkTarget j
    (if tge 1 j then mm else 0%nat)
    (if tge 1 j then a0 else 0%nat)
    (if tge 3 j then Some arg else None)
    ex
    (tge 8 j && negb (ran ex)).

Record InvFree (s : State) : Prop := mkInvFree {
  invf_reach :
    reachb_free (cpc (caller s)) (tpc (target s))
                (m_success (self (shared s)))
                (ran (t_ret (target s))) = true;
  invf_mem : mem_ok (t_ret (target s)) (mem (shared s));
  invf_shared :
    shared s = shared_at_free (cpc (caller s)) (tpc (target s))
                 (m_success (self (shared s))) (t_ret (target s))
                 (mem (shared s));
  invf_caller :
    caller s = caller_at_pc (cpc (caller s)) (m_success (self (shared s)))
                 (t_ret (target s));
  invf_target :
    target s = target_at_pc_free (tpc (target s)) (t_ret (target s));
  invf_calls :
    count is_invocation (trace s)
    = if ran (t_ret (target s)) then 1%nat else 0%nat;
  invf_frees :
    count is_free (trace s)
    = if freedb (cpc (caller s)) (tpc (target s)) (ran (t_ret (target s)))
      then 1%nat else 0%nat;
  invf_reads :
    count is_read (trace s) = if tge 3 (tpc (target s)) then 1%nat else 0%nat;
  invf_unlocked : count is_unlocked_read (trace s) = 0%nat
}.

(** *** The states a call of [DelegateFreeAsyncWait<void(Param1)>] can
    reach *)

Definition clone_at_free_void (k : CallerPc) (j : TargetPc) (ok e : bool)
  : Delegate :=
  mkDelegate
    (m_target d0) (m_thread d0) (m_success d0) (m_timeout d0)
    (mkSemaphore (cge 3 k)
       (if tge 7 j && e && negb (cge 7 k && ok) then 1%nat else 0%nat))
    (if c_in_lock k then Some Caller
     else if t_in_lock_free j then Some Target else None)
    (if cge 2 k
     then 2 - (if cge 10 k then 1 else 0) - (if tge 8 j then 1 else 0)
     else 0)
    (m_retVal d0).

Definition shared_at_free_void (k : CallerPc) (j : TargetPc) (ok e : bool)
  (x : Mem) : Shared :=
  mkShared
    (if cge 7 k then set_success ok d0 else d0)
    (heap_of (if cge 1 k && negb (freedb k j e)
              then Some (clone_at_free_void k j ok e) else None))
    (msgs_of (if cge 5 k && negb (freedb k j e)
              then Some (mkMsg a0 arg) else None))
    (if cge 6 k && negb (tge 1 j) then [mm] else [])
    x.

Definition target_at_pc_free_void (j : TargetPc) (e : bool) : TargetSt :=
  mkTarget j
    (if tge 1 j then mm else 0%nat)
    (if tge 1 j then a0 else 0%nat)
    (if tge 3 j then Some arg else None)
    None
    (tge 8 j && negb e).

Definition reachb_free_void (k : CallerPc) (j : TargetPc) (ok e : bool)
  : bool :=
  reachb_void k j ok e && negb (c_in_lock k && t_in_lock_free j).

Record InvFreeVoid (s : State) : Prop := mkInvFreeVoid {
  invfv_reach :
    reachb_free_void (cpc (caller s)) (tpc (target s))
      (m_success (self (shared s)))
      (ran_void (cpc (caller s)) (tpc (target s))
                (t_deleteData (target s))) = true;
  invfv_mem :
    if ran_void (cpc (caller s)) (tpc (target s)) (t_deleteData (target s))
    then exists r, call (m_target d0) arg mem0 = Some (r, mem (shared s))
    else mem (shared s) = mem0;
  invfv_shared :
    shared s
    = shared_at_free_void (cpc (caller s)) (tpc (target s))
        (m_success (self (shared s)))
        (ran_void (cpc (caller s)) (tpc (target s))
                  (t_deleteData (target s)))
        (mem (shared s));
  invfv_caller :
    caller s
    = caller_at_pc_void (cpc (caller s))
        (ran_void (cpc (caller s)) (tpc (target s))
                  (t_deleteData (target s)));
  invfv_target :
    target s
    = target_at_pc_free_void (tpc (target s))
        (ran_void (cpc (caller s)) (tpc (target s))
                  (t_deleteData (target s)));
  invfv_calls :
    count is_invocation (trace s)
    = if ran_void (cpc (caller s)) (tpc (target s))
           (t_deleteData (target s))
      then 1%nat else 0%nat;
  invfv_frees :
    count is_free (trace s)
    = if freedb (cpc (caller s)) (tpc (target s))
           (ran_void (cpc (caller s)) (tpc (target s))
                     (t_deleteData (target s)))
      then 1%nat else 0%nat;
  invfv_waits :
    count is_true_wait (trace s)
    = if cge 8 (cpc (caller s)) && m_success (self (shared s))
      then 1%nat else 0%nat;
  invfv_unlocked : count is_unlocked_read (trace s) = 0%nat
}.

End Call.

End AsyncWait.

Arguments AClone {Param RetType} a.
Arguments ASetRef {Param RetType} n.
Arguments ASemaCreate {Param RetType}.
Arguments ASemaReset {Param RetType}.
Arguments ANewMsg {Param RetType} m.
Arguments ADispatch {Param RetType} m.
Arguments AWait {Param RetType} ok.
Arguments ACopy {Param RetType} r.
Arguments ALock {Param RetType}.
Arguments ADec {Param RetType} n.
Arguments AUnlock {Param RetType}.
Arguments AFree {Param RetType}.
Arguments AReturn {Param RetType} v.
Arguments ADequeue {Param RetType} m.
Arguments AGetParam {Param RetType} p.
Arguments ACheck {Param RetType} n.
Arguments AStore {Param RetType} r.
Arguments ASignal {Param RetType}.
Arguments is_invocation {Param RetType} e.
Arguments is_dec_by {Param RetType} tid e.
Arguments is_free {Param RetType} e.
Arguments is_copy {Param RetType} e.
Arguments t_setup {Param RetType} m0 arg.
Arguments t_skip {Param RetType}.
Arguments is_read {Param RetType} e.
Arguments is_unlocked_read {Param RetType} e.
Arguments is_true_wait {Param RetType} e.

(** ** A concrete delegate

    [int square(int x)] bound as a member function of the object at 100; the
    memory counts the calls made.  An unbound (null) object cannot be
    called. *)
Module Demo.

Definition square (c : Callable) (p : Z) (calls : Z) : option (Z * Z) :=
  match c with
  | MemberFn o _ => if decide (o = 0) then None else Some (p * p, calls + 1)
  | FreeFn _ => Some (p * p, calls + 1)
  end.

(** [MakeDelegate(&obj, &TestClass::Square, &workerThread, 50)] *)
Definition threaded : Delegate Z := construct Z (MemberFn 100 7) 1 50.

(** The same binding for another target thread. *)
Definition on_other_thread : Delegate Z := construct Z (MemberFn 100 7) 2 50.

(** The same binding with an infinite wait. *)
Definition patient : Delegate Z :=
  construct Z (MemberFn 100 7) 1 WAIT_INFINITE.

(** The same delegate with no target thread. *)
Definition direct : Delegate Z := construct Z (MemberFn 100 7) 0 50.

Definition start : State Z Z Z := init threaded ∅ ∅ 0 5.

Definition start_direct : State Z Z Z := init direct ∅ ∅ 0 5.

(** The target thread runs [DelegateInvoke] while the caller waits. *)
Definition in_time : list Choice :=
  repeat (RunCaller false) 7 ++ repeat RunTarget 11
  ++ repeat (RunCaller false) 10.

(** The caller waits; the target thread is about to call the function. *)
Definition function_running : list Choice :=
  repeat (RunCaller false) 6 ++ repeat RunTarget 4.

(** The caller waits; the target thread has stored the result and is about
    to raise the signal. *)
Definition about_to_signal : list Choice :=
  repeat (RunCaller false) 6 ++ repeat RunTarget 6.

(** The wait expires before the target thread takes the message. *)
Definition too_late : list Choice :=
  repeat (RunCaller false) 6 ++ repeat (RunCaller true) 10
  ++ repeat RunTarget 11.

(** [void notify(int x)], a free function; the memory adds up what it was
    given. *)
Definition notify (c : Callable) (p : Z) (total : Z) : option (unit * Z) :=
  match c with
  | MemberFn o _ => if decide (o = 0) then None else Some (tt, total + p)
  | FreeFn _ => Some (tt, total + p)
  end.

(** [MakeDelegate(&notify, &workerThread, 50)] and the same with no
    thread. *)
Definition listener : Delegate unit := construct unit (FreeFn 9) 1 50.

Definition listener_direct : Delegate unit := construct unit (FreeFn 9) 0 50.

(** [MakeDelegate(&square, &workerThread, 50)] *)
Definition free_square : Delegate Z := construct Z (FreeFn 8) 1 50.

(** Two threads call the same delegate with 2 and with 3; the target thread
    serves both.  The first caller copies its result, then the second
    caller copies its own, then both return. *)
Definition overlapped : list Choice2 :=
  repeat (RunA false) 6 ++ repeat (RunB false) 6 ++ repeat RunT 20
  ++ repeat (RunA false) 2 ++ repeat (RunB false) 2
  ++ repeat (RunA false) 5 ++ repeat (RunB false) 5.

(** The same run in two parts: up to the first caller's successful wait,
    and from there to the end. *)
Definition overlapped_waited : list Choice2 :=
  repeat (RunA false) 6 ++ repeat (RunB false) 6 ++ repeat RunT 20
  ++ [RunA false].

Definition overlapped_rest : list Choice2 :=
  [RunA false] ++ repeat (RunB false) 2
  ++ repeat (RunA false) 5 ++ repeat (RunB false) 5.

(** The first caller stands at its wait ... *)
Definition late_waiting : list Choice2 := repeat (RunA false) 6.

(** ... and after the wait has expired: it decrements and unlocks; the
    target thread finds its message too late and frees; the second caller
    makes its call, is served and copies its result; then the first caller
    returns. *)
Definition late_rest : list Choice2 :=
  repeat (RunA false) 3 ++ repeat RunT 8 ++ repeat (RunB false) 6
  ++ repeat RunT 9 ++ repeat (RunB false) 2 ++ [RunA false].

End Demo.

(** * Proofs *)

Section Proofs.

Variables Param RetType Mem : Type.
Variable call : Callable -> Param -> Mem -> option (RetType * Mem).

(** ** Threads only move forward *)

Lemma caller_step_advances expired (sh sh' : Shared Param RetType Mem)
  (c c' : CallerSt Param RetType) a :
  caller_step call expired sh c = Next (sh', c', a) ->
  (crank (cpc c) < crank (cpc c'))%nat.
Proof.
  unfold caller_step, caller_at.
  destruct (cpc c); intros H; repeat case_match; simplify_eq; simpl; lia.
Qed.

Lemma target_step_advances (sh sh' : Shared Param RetType Mem)
  (t t' : TargetSt Param RetType) a :
  target_step call sh t = Next (sh', t', a) ->
  (trank (tpc t) < trank (tpc t'))%nat.
Proof.
  unfold target_step, target_at.
  destruct (tpc t); intros H; repeat case_match; simplify_eq; simpl; lia.
Qed.

Lemma crank_le k : (crank k <= 13)%nat.
Proof. destruct k; simpl; lia. Qed.

Lemma trank_le j : (trank j <= 10)%nat.
Proof. destruct j; simpl; lia. Qed.

Lemma step_fuel ch (s s' : State Param RetType Mem) :
  step call ch s = Next s' -> (fuel_of s' < fuel_of s)%nat.
Proof.
  unfold step, fuel_of. destruct ch.
  - destruct (caller_step call expired (shared s) (caller s))
      as [[[sh c] a]| |] eqn:E; try discriminate.
    intros [= <-]. simpl. apply caller_step_advances in E.
    pose proof (crank_le (cpc c)). lia.
  - destruct (target_step call (shared s) (target s))
      as [[[sh t] a]| |] eqn:E; try discriminate.
    intros [= <-]. simpl. apply target_step_advances in E.
    pose proof (trank_le (tpc t)). lia.
Qed.

Lemma finished_dec (s : State Param RetType Mem) :
  finished s \/ ~ finished s.
Proof.
  unfold finished.
  destruct (cpc (caller s)), (tpc (target s));
    first [left; split; reflexivity | right; intros [? ?]; discriminate].
Qed.

(** ** Runs and traces *)

Lemma exec_cons ch rest (s : State Param RetType Mem) :
  exec call (ch :: rest) s
  = match step call ch s with
    | Next s' => exec call rest s'
    | Blocked => exec call rest s
    | Fault => mkState (shared s) (caller s) (target s) (trace s) true
    end.
Proof. reflexivity. Qed.

Lemma step_faulted ch (s s' : State Param RetType Mem) :
  step call ch s = Next s' -> faulted s' = faulted s.
Proof.
  unfold step. destruct ch; repeat case_match; intros; simplify_eq;
    reflexivity.
Qed.

Lemma step_trace ch (s s' : State Param RetType Mem) :
  step call ch s = Next s' -> exists e, trace s' = trace s ++ [e].
Proof.
  unfold step. destruct ch; repeat case_match; intros; simplify_eq;
    eexists; reflexivity.
Qed.

(** A run only adds events. *)
Lemma exec_trace_mono sched (s : State Param RetType Mem) e :
  In e (trace s) -> In e (trace (exec call sched s)).
Proof.
  revert s. induction sched as [|ch rest IH]; intros s H; simpl;
    [assumption|].
  destruct (step call ch s) as [s'| |] eqn:E; [|apply IH, H|exact H].
  apply IH. apply step_trace in E as [e' ->]. apply in_or_app. auto.
Qed.

Lemma count_app f (l1 l2 : list (Event Param RetType)) :
  count f (l1 ++ l2) = (count f l1 + count f l2)%nat.
Proof. unfold count. rewrite List.filter_app, length_app. reflexivity. Qed.

(** Every event is the caller's or the target's. *)
Lemma count_by_actor f (tr : list (Event Param RetType)) :
  count f tr
  = (count f (by_actor Caller tr) + count f (by_actor Target tr))%nat.
Proof.
  unfold count, by_actor. induction tr as [|e tr IH]; [reflexivity|].
  simpl. destruct e as [[] l a]; simpl; destruct (f _); simpl; lia.
Qed.

Lemma in_by_actor (e : Event Param RetType) tr :
  In e tr -> In e (by_actor (actor e) tr).
Proof.
  unfold by_actor. intros H. apply List.filter_In. split; [assumption|].
  destruct (actor e); reflexivity.
Qed.

Lemma in_trace_cases (e : Event Param RetType) tr :
  In e tr -> In e (by_actor Caller tr) \/ In e (by_actor Target tr).
Proof.
  intros H. apply in_by_actor in H. destruct (actor e); auto.
Qed.

Lemma by_actor_in tid (e : Event Param RetType) tr :
  In e (by_actor tid tr) -> In e tr.
Proof. unfold by_actor. intros H. apply List.filter_In in H. tauto. Qed.

(** ** Equality and copies *)

Lemma Callable_eqb_eq (x y : Callable) : Callable_eqb x y = true <-> x = y.
Proof.
  destruct x as [o1 f1|f1], y as [o2 f2|f2]; simpl;
    rewrite ?andb_true_iff, ?Z.eqb_eq; split; intros H;
    try discriminate; try (destruct H; congruence); try congruence.
  injection H as -> ->. split; reflexivity.
Qed.

(** C8, as amended: [operator==] of two delegates of the same AsyncWait
    specialisation is true exactly when they have the same target thread
    and reference the same object and the same function; compared with a
    delegate of any other class it is false. *)
Theorem delegate_equality (d1 d2 : Delegate RetType) :
  (Delegate_eqb d1 (Some d2) = true
   <-> m_thread d1 = m_thread d2 /\ m_target d1 = m_target d2)
  /\ Delegate_eqb d1 None = false.
Proof.
  split; [|reflexivity].
  unfold Delegate_eqb. rewrite andb_true_iff, Z.eqb_eq, Callable_eqb_eq.
  reflexivity.
Qed.

(** What the copy constructor and [Clone()] copy, and what they make
    afresh. *)
Lemma copy_fields (rhs : Delegate RetType) :
  m_refCnt (copy_base rhs) = 0
  /\ m_refCnt (Clone rhs) = 0
  /\ m_target (Clone rhs) = m_target rhs
  /\ m_retVal (Clone rhs) = m_retVal rhs
  /\ m_thread (Clone rhs) = m_thread rhs
  /\ m_timeout (Clone rhs) = m_timeout rhs
  /\ m_success (Clone rhs) = m_success rhs
  /\ m_sema (Clone rhs) = Semaphore_default
  /\ m_lock (Clone rhs) = None
  /\ forall x l n,
       Clone (set_sema x (set_lock l (set_refCnt n rhs))) = Clone rhs.
Proof. repeat split. Qed.

(** [Swap] assigns the thread, the timeout and the success flag, nothing
    else. *)
Lemma Swap_frame (s this : Delegate RetType) :
  m_target (Swap s this) = m_target this
  /\ m_sema (Swap s this) = m_sema this
  /\ m_lock (Swap s this) = m_lock this
  /\ m_refCnt (Swap s this) = m_refCnt this
  /\ m_retVal (Swap s this) = m_retVal this.
Proof. repeat split. Qed.

(** ** Equality, copies and assignment *)

(** Writing the success flag a delegate already has changes nothing. *)
Lemma set_success_same (d : Delegate RetType) :
  set_success (m_success d) d = d.
Proof. destruct d; reflexivity. Qed.

Lemma Callable_eqb_refl (x : Callable) : Callable_eqb x x = true.
Proof. apply Callable_eqb_eq. reflexivity. Qed.

Lemma Delegate_eqb_spec (d1 d2 : Delegate RetType) :
  Delegate_eqb d1 (Some d2) = true
  <-> m_thread d1 = m_thread d2 /\ m_target d1 = m_target d2.
Proof.
  unfold Delegate_eqb. rewrite andb_true_iff, Z.eqb_eq, Callable_eqb_eq.
  reflexivity.
Qed.

(** X1: [operator==] is an equivalence on the delegates of one
    specialisation: every delegate equals itself, the order of the two
    operands does not matter, and two delegates equal to a third are
    equal. *)
Theorem equality_equivalence (d1 d2 d3 : Delegate RetType) :
  Delegate_eqb d1 (Some d1) = true
  /\ Delegate_eqb d1 (Some d2) = Delegate_eqb d2 (Some d1)
  /\ (Delegate_eqb d1 (Some d2) = true ->
      Delegate_eqb d2 (Some d3) = true ->
      Delegate_eqb d1 (Some d3) = true).
Proof.
  split; [apply Delegate_eqb_spec; split; reflexivity|]. split.
  - destruct (Delegate_eqb d1 (Some d2)) eqn:E12,
             (Delegate_eqb d2 (Some d1)) eqn:E21; try reflexivity.
    + apply Delegate_eqb_spec in E12 as [? ?].
      rewrite <- E21. symmetry. apply Delegate_eqb_spec. split; congruence.
    + apply Delegate_eqb_spec in E21 as [? ?].
      rewrite <- E12. apply Delegate_eqb_spec. split; congruence.
  - rewrite !Delegate_eqb_spec. intros [? ?] [? ?]. split; congruence.
Qed.

(** X2: a copy-constructed delegate and a clone compare equal to their
    source, in both directions, whatever the state (success flag, count,
    semaphore, lock, result holder) of the source. *)
Theorem copy_equals_source (d : Delegate RetType) :
  Delegate_eqb (copy_base d) (Some d) = true
  /\ Delegate_eqb (Clone d) (Some d) = true
  /\ Delegate_eqb d (Some (Clone d)) = true
  /\ forall b x l n r,
       Delegate_eqb
         (Clone (set_success b (set_sema x (set_lock l
                   (set_refCnt n (set_retVal r d))))))
         (Some d) = true.
Proof.
  repeat split; intros; apply Delegate_eqb_spec; split; reflexivity.
Qed.

(** X3: after an assignment the assigned-to delegate compares equal to the
    right-hand side and has its timeout and success flag, but keeps its own
    result holder, reference count, semaphore and lock: so [IsSuccess()]
    can be true on a delegate whose [GetRetVal()] was never written.
    Assigning a delegate to itself changes nothing, with or without the
    [&rhs != this] test. *)
Theorem assignment_spec (same : bool) (rhs this : Delegate RetType) :
  (same = true -> rhs = this) ->
  Delegate_eqb (assign same rhs this) (Some rhs) = true
  /\ m_timeout (assign same rhs this) = m_timeout rhs
  /\ IsSuccess (assign same rhs this) = IsSuccess rhs
  /\ GetRetVal (assign same rhs this) = GetRetVal this
  /\ m_refCnt (assign same rhs this) = m_refCnt this
  /\ m_sema (assign same rhs this) = m_sema this
  /\ m_lock (assign same rhs this) = m_lock this
  /\ assign false this this = this.
Proof.
  intros Hsame. destruct same.
  - rewrite (Hsame eq_refl). simpl.
    repeat split; try reflexivity.
    + apply Delegate_eqb_spec. split; reflexivity.
    + destruct this; reflexivity.
  - repeat split; try reflexivity.
    + apply Delegate_eqb_spec. split; reflexivity.
    + destruct this; reflexivity.
Qed.

(** X4: two delegates made by [MakeDelegate] compare equal exactly when
    they were made for the same object, function and thread, whatever
    their timeouts; and a delegate rebound with [Bind] equals the delegate
    [MakeDelegate] makes from the same object, function and thread. *)
Theorem make_delegate_equality (tgt tgt' : Callable) (th th' t t' : Z)
  (d : Delegate RetType) :
  (Delegate_eqb (MakeDelegate RetType tgt th t)
                (Some (MakeDelegate RetType tgt' th' t')) = true
   <-> th = th' /\ tgt = tgt')
  /\ Delegate_eqb (Bind tgt th d) (Some (MakeDelegate RetType tgt th t))
     = true
  /\ Delegate_eqb (MakeDelegate RetType tgt th t) (Some (Bind tgt th d))
     = true.
Proof.
  split; [apply Delegate_eqb_spec|].
  split; apply Delegate_eqb_spec; split; reflexivity.
Qed.

(** ** One call *)

Section Call.

Variable d0 : Delegate RetType.
Variable h0 : gmap nat (Delegate RetType).
Variable m0 : gmap nat (Msg Param).
Variable mem0 : Mem.
Variable arg : Param.

Local Abbreviation Inv := (Inv call d0 h0 m0 mem0 arg).
Local Abbreviation start := (init d0 h0 m0 mem0 arg).
Local Abbreviation run sched := (exec call sched (init d0 h0 m0 mem0 arg)).
Local Abbreviation InvVoid := (InvVoid call d0 h0 m0 mem0 arg).
Local Abbreviation run_void sched :=
  (exec_void call sched (init d0 h0 m0 mem0 arg)).
Local Abbreviation InvFree := (InvFree call d0 h0 m0 mem0 arg).
Local Abbreviation run_free sched :=
  (exec_free call sched (init d0 h0 m0 mem0 arg)).
Local Abbreviation InvFreeVoid := (InvFreeVoid call d0 h0 m0 mem0 arg).
Local Abbreviation run_free_void sched :=
  (exec_free_void call sched (init d0 h0 m0 mem0 arg)).

(** *** A delegate with no target thread *)

Section Direct.

Variable r : RetType.
Variable x : Mem.
Hypothesis Hdirect : m_thread d0 = 0.
Hypothesis Hcall : call (m_target d0) arg mem0 = Some (r, x).

Lemma direct_first_step b :
  step call (RunCaller b) start = Next (direct_done d0 h0 m0 arg r x).
Proof.
  unfold step, caller_step, init. simpl.
  destruct (decide (m_thread d0 = 0)); [|contradiction].
  rewrite Hcall. reflexivity.
Qed.

Lemma direct_idle_target : step call RunTarget start = Blocked.
Proof. reflexivity. Qed.

Lemma direct_done_stays ch :
  step call ch (direct_done d0 h0 m0 arg r x) = Blocked.
Proof. destruct ch; reflexivity. Qed.

Lemma direct_done_exec sched :
  exec call sched (direct_done d0 h0 m0 arg r x)
  = direct_done d0 h0 m0 arg r x.
Proof.
  induction sched as [|ch rest IH]; [reflexivity|].
  rewrite exec_cons, direct_done_stays. exact IH.
Qed.

(** C5: through a delegate with no target thread, the caller's first step
    of [operator()] calls the bound function on the caller's own thread
    and returns its result: the call ends in [direct_done], where the heap
    of clones, the heap of messages and the queue are as before, the only
    event is the direct call, and the delegate is unchanged; whether a
    wait would have expired ([b]) plays no part.  A run never leaves these
    two states. *)
Theorem direct_call :
  (forall b rest,
     exec call (RunCaller b :: rest) start = direct_done d0 h0 m0 arg r x)
  /\ (forall sched,
        run sched = start \/ run sched = direct_done d0 h0 m0 arg r x).
Proof.
  split.
  - intros b rest. rewrite exec_cons, direct_first_step.
    apply direct_done_exec.
  - induction sched as [|[b|] rest IH].
    + left; reflexivity.
    + right. rewrite exec_cons, direct_first_step. apply direct_done_exec.
    + rewrite exec_cons, direct_idle_target. exact IH.
Qed.

(** What a run through a delegate with no target thread can be. *)
Lemma direct_runs sched :
  run sched = start \/ run sched = direct_done d0 h0 m0 arg r x.
Proof.
  induction sched as [|[b|] rest IH].
  - left; reflexivity.
  - right. rewrite exec_cons, direct_first_step. apply direct_done_exec.
  - rewrite exec_cons, direct_idle_target. exact IH.
Qed.

(** X5: a call through a delegate with no target thread hands back the
    result of the bound function but records nothing: the success flag and
    the result holder of the delegate stay what they were, so after the
    call [IsSuccess()] of a newly made delegate is still false. *)
Theorem direct_call_records_nothing b rest :
  result (caller (exec call (RunCaller b :: rest) start)) = Some (Some r)
  /\ IsSuccess (self (shared (exec call (RunCaller b :: rest) start)))
     = IsSuccess d0
  /\ GetRetVal (self (shared (exec call (RunCaller b :: rest) start)))
     = GetRetVal d0
  /\ forall sched, self (shared (run sched)) = d0.
Proof.
  rewrite exec_cons, direct_first_step, direct_done_exec.
  repeat split.
  intros sched. destruct (direct_runs sched) as [-> | ->]; reflexivity.
Qed.

End Direct.

(** *** A void delegate with no target thread *)

Section DirectVoid.

Variable r : RetType.
Variable x : Mem.
Hypothesis Hdirect : m_thread d0 = 0.
Hypothesis Hcall : call (m_target d0) arg mem0 = Some (r, x).

Lemma direct_void_first_step b :
  step_void call (RunCaller b) start = Next (direct_done_void d0 h0 m0 arg r x).
Proof.
  unfold step_void, caller_step_void, init. simpl.
  destruct (decide (m_thread d0 = 0)); [|contradiction].
  rewrite Hcall. reflexivity.
Qed.

Lemma direct_void_idle_target : step_void call RunTarget start = Blocked.
Proof. reflexivity. Qed.

Lemma direct_void_done_stays ch :
  step_void call ch (direct_done_void d0 h0 m0 arg r x) = Blocked.
Proof. destruct ch; reflexivity. Qed.

Lemma exec_void_cons ch rest (s : State Param RetType Mem) :
  exec_void call (ch :: rest) s
  = match step_void call ch s with
    | Next s' => exec_void call rest s'
    | Blocked => exec_void call rest s
    | Fault => mkState (shared s) (caller s) (target s) (trace s) true
    end.
Proof. reflexivity. Qed.

Lemma direct_void_done_exec sched :
  exec_void call sched (direct_done_void d0 h0 m0 arg r x)
  = direct_done_void d0 h0 m0 arg r x.
Proof.
  induction sched as [|ch rest IH]; [reflexivity|].
  rewrite exec_void_cons, direct_void_done_stays. exact IH.
Qed.

(** X15: through a void delegate with no target thread, the caller's first
    step calls the bound function on the caller's own thread and the call
    is over: no clone and no message were made, nothing was queued, the
    delegate and its success flag are as before, the memory is what the
    function left, and nothing is returned.  The target thread never has
    anything to do, and a run never leaves these two states. *)
Theorem void_direct_call :
  (forall b rest,
     exec_void call (RunCaller b :: rest) start
     = direct_done_void d0 h0 m0 arg r x)
  /\ (forall sched,
        run_void sched = start
        \/ run_void sched = direct_done_void d0 h0 m0 arg r x).
Proof.
  split.
  - intros b rest. rewrite exec_void_cons, direct_void_first_step.
    apply direct_void_done_exec.
  - induction sched as [|[b|] rest IH].
    + left; reflexivity.
    + right. rewrite exec_void_cons, direct_void_first_step.
      apply direct_void_done_exec.
    + rewrite exec_void_cons, direct_void_idle_target. exact IH.
Qed.

End DirectVoid.

(** *** The store of a threaded call *)

(** [Clone()] and [new] return addresses not in use. *)
Lemma a0_fresh : h0 !! a0 h0 = None.
Proof. apply not_elem_of_dom, is_fresh. Qed.

Lemma mm_fresh : m0 !! mm m0 = None.
Proof. apply not_elem_of_dom, is_fresh. Qed.

Lemma heap_of_lookup o : heap_of h0 o !! a0 h0 = o.
Proof. destruct o; simpl; [apply lookup_insert_eq | apply a0_fresh]. Qed.

Lemma heap_of_insert o d :
  <[a0 h0 := d]> (heap_of h0 o) = heap_of h0 (Some d).
Proof. destruct o; simpl; [apply insert_insert_eq | reflexivity]. Qed.

Lemma heap_of_delete o : delete (a0 h0) (heap_of h0 o) = heap_of h0 None.
Proof.
  destruct o; simpl;
    [apply delete_insert_id, a0_fresh | apply delete_id, a0_fresh].
Qed.

Lemma heap_of_fresh : fresh (dom (heap_of h0 None)) = a0 h0.
Proof. reflexivity. Qed.

Lemma heap_of_other o b : b <> a0 h0 -> heap_of h0 o !! b = h0 !! b.
Proof.
  intros Hb. destruct o; simpl; [|reflexivity].
  apply lookup_insert_ne. congruence.
Qed.

Lemma msgs_of_lookup o : msgs_of m0 o !! mm m0 = o.
Proof. destruct o; simpl; [apply lookup_insert_eq | apply mm_fresh]. Qed.

Lemma msgs_of_insert o e :
  <[mm m0 := e]> (msgs_of m0 o) = msgs_of m0 (Some e).
Proof. destruct o; simpl; [apply insert_insert_eq | reflexivity]. Qed.

Lemma msgs_of_delete o : delete (mm m0) (msgs_of m0 o) = msgs_of m0 None.
Proof.
  destruct o; simpl;
    [apply delete_insert_id, mm_fresh | apply delete_id, mm_fresh].
Qed.

Lemma msgs_of_fresh : fresh (dom (msgs_of m0 None)) = mm m0.
Proof. reflexivity. Qed.

Lemma msgs_of_other o b : b <> mm m0 -> msgs_of m0 o !! b = m0 !! b.
Proof.
  intros Hb. destruct o; simpl; [|reflexivity].
  apply lookup_insert_ne. congruence.
Qed.

Lemma heap_of_none : heap_of h0 None = h0.
Proof. reflexivity. Qed.

Lemma msgs_of_none : msgs_of m0 None = m0.
Proof. reflexivity. Qed.

Local Opaque heap_of msgs_of a0 mm.

Ltac unfold_model :=
  unfold step, caller_step, target_step, holds, shared_at, caller_at_pc,
    target_at_pc, self_at, clone_at, Semaphore_Wait, with_heap, with_self,
    with_msgs, with_queue, with_mem, caller_at, target_at, set_success,
    set_retVal, set_lock, set_refCnt, set_sema, Semaphore_Create,
    Semaphore_Reset, Semaphore_Signal, Clone, copy_base, Swap.

Ltac reduce_store :=
  simpl;
  rewrite ?heap_of_lookup, ?msgs_of_lookup, ?heap_of_fresh, ?msgs_of_fresh,
    ?heap_of_insert, ?heap_of_delete, ?msgs_of_insert, ?msgs_of_delete;
  simpl.

Ltac branch :=
  match goal with
  | |- context [decide (?a = ?b)] =>
      destruct (decide (a = b)); [try contradiction | try contradiction]
  | |- context [call ?a ?b ?c] =>
      let E := fresh "Ecall" in destruct (call a b c) as [[? ?]|] eqn:E
  end.

Ltac run_model := unfold_model; reduce_store; repeat (branch; reduce_store).

(** Take an invariant apart into the concrete states it allows. *)
Ltac states s H :=
  let Hr := fresh "Hr" in
  let Hm := fresh "Hm" in
  let Hs := fresh "Hs" in
  let Hc := fresh "Hc" in
  let Ht := fresh "Ht" in
  let Hch := fresh "Hch" in
  let Hth := fresh "Hth" in
  let sh := fresh "sh" in
  let c := fresh "c" in
  let t := fresh "t" in
  let tr := fresh "tr" in
  let f := fresh "f" in
  let k := fresh "k" in
  let j := fresh "j" in
  let ok := fresh "ok" in
  let ex := fresh "ex" in
  let x := fresh "x" in
  let r := fresh "r" in
  destruct H as [Hr Hm Hs Hc Ht Hch Hth];
  destruct s as [sh c t tr f]; simpl in Hr, Hm, Hs, Hc, Ht, Hch, Hth;
  remember (cpc c) as k eqn:Ek; remember (tpc t) as j eqn:Ej;
  remember (m_success (self sh)) as ok eqn:Eok;
  remember (t_ret t) as ex eqn:Eex;
  remember (mem sh) as x eqn:Ex;
  clear Ek Ej Eok Eex Ex; subst sh c t;
  destruct k, j, ok, ex as [r|]; try discriminate Hr; clear Hr;
  simpl in Hm; subst.

Ltac histories :=
  unfold chist, thist, c_script, c_setup, c_waited, c_release, t_script,
    t_setup, t_run, t_skip, cev, tev in *; simpl in *.

Ltac in_list := simpl; solve [repeat (first [left; reflexivity | right])].

Ltac in_trace tid H := apply (by_actor_in tid); rewrite H; in_list.

(** Go through the events [Hi : In e l] of an explicit list. *)
Ltac each_event Hi tac :=
  repeat (destruct Hi as [<-|Hi]; [tac|]); try contradiction.

(** [Hi : In e l] for an explicit [l] that does not hold [e]. *)
Ltac not_in_list Hi :=
  exfalso;
  solve [repeat (let E := fresh in destruct Hi as [E|Hi]; [discriminate E|]);
         exact Hi].

Hypothesis Hthread : m_thread d0 <> 0.

Lemma inv_start : Inv start.
Proof. constructor; simpl; reflexivity. Qed.

(** A step keeps the invariant; it can only fault by calling an unbound
    target. *)
Lemma inv_step ch s :
  Inv s ->
  match step call ch s with
  | Next s' => Inv s'
  | Blocked => True
  | Fault => call (m_target d0) arg mem0 = None
  end.
Proof.
  intros H. states s H.
  all: destruct ch as [[|]|].
  all: run_model; try exact I; try assumption.
  all: constructor; simpl; try reflexivity; try assumption.
  all: try (unfold_model; reduce_store; reflexivity).
  all: unfold by_actor in *; rewrite List.filter_app; simpl;
    rewrite ?Hch, ?Hth; simpl; rewrite ?app_nil_r; reflexivity.
Qed.

Lemma inv_fault_flag s b :
  Inv s -> Inv (mkState (shared s) (caller s) (target s) (trace s) b).
Proof. intros []; constructor; assumption. Qed.

Lemma exec_inv sched s : Inv s -> Inv (exec call sched s).
Proof.
  revert s. induction sched as [|ch rest IH]; intros s H; simpl;
    [assumption|].
  pose proof (inv_step ch H) as Hs.
  destruct (step call ch s);
    [apply IH, Hs | apply IH, H | apply inv_fault_flag, H].
Qed.

Lemma run_inv sched : Inv (run sched).
Proof. apply exec_inv, inv_start. Qed.

Ltac at_state sched s H :=
  pose proof (run_inv sched) as H;
  remember (exec call sched start) as s eqn:Es; clear Es; states s H.

(** C1: over any run of a dispatched call the bound function is called at
    most once, and if it is called then [DelegateInvoke] has found the
    reference count of the clone equal to 2 under the lock. *)
Theorem at_most_once sched :
  (count is_invocation (trace (run sched)) <= 1)%nat
  /\ (count is_invocation (trace (run sched)) = 1%nat ->
      In (mkEvent Target true (ACheck 2)) (trace (run sched))).
Proof.
  at_state sched s H.
  all: simpl; rewrite count_by_actor, Hch, Hth.
  all: split; [unfold count; histories; lia|].
  all: intros Hc; try (exfalso; revert Hc; unfold count; histories; lia).
  all: apply (by_actor_in Target); rewrite Hth; histories; tauto.
Qed.

(** C7, as amended: the decrements of the reference count and the
    execute-or-skip decision, with the call, the store of the result and
    the signal it guards, are made under the clone's lock, which the two
    threads never hold together; the clone is freed by a thread that has
    released the lock.  The caller's initialisation of the count, its
    set-up of and wait on the semaphore, and its read of the clone's result
    slot are made without the lock. *)
Theorem lock_protocol sched :
  (forall e, In e (trace (run sched)) ->
     (in_critical_section (act e) = true -> locked e = true)
     /\ (is_free e = true -> locked e = false)
     /\ (caller_unlocked_access (act e) = true ->
         actor e = Caller /\ locked e = false))
  /\ c_in_lock (cpc (caller (run sched)))
     && t_in_lock (tpc (target (run sched))) = false
  /\ (cge 1 (cpc (caller (run sched))) = true ->
      forall d,
        heap (shared (run sched)) !! delegate (caller (run sched)) = Some d ->
        m_lock d = if c_in_lock (cpc (caller (run sched))) then Some Caller
                   else if t_in_lock (tpc (target (run sched)))
                        then Some Target else None).
Proof.
  at_state sched s H.
  all: simpl; rewrite ?heap_of_lookup.
  all: split; [|split; [reflexivity|]].
  all: try discriminate.
  all: try (intros _ d [= <-]; reflexivity).
  all: intros e He;
    destruct (in_trace_cases _ _ He) as [Hi|Hi];
    [rewrite Hch in Hi | rewrite Hth in Hi]; histories.
  all: each_event Hi ltac:(simpl; repeat split; solve [auto | discriminate]).
Qed.

(** C10: at every point of a threaded call, so also when [operator()]
    returns, the delegate it was called on has its thread pointer, timeout,
    bound object and function, reference count, semaphore and lock as
    before the call; it differs from the delegate before the call in the
    success flag and the result holder at most. *)
Theorem invoke_frame sched :
  m_thread (self (shared (run sched))) = m_thread d0
  /\ m_timeout (self (shared (run sched))) = m_timeout d0
  /\ m_target (self (shared (run sched))) = m_target d0
  /\ m_refCnt (self (shared (run sched))) = m_refCnt d0
  /\ m_sema (self (shared (run sched))) = m_sema d0
  /\ m_lock (self (shared (run sched))) = m_lock d0
  /\ self (shared (run sched))
     = set_retVal (GetRetVal (self (shared (run sched))))
         (set_success (IsSuccess (self (shared (run sched)))) d0).
Proof.
  at_state sched s H.
  all: simpl; repeat split; destruct d0; reflexivity.
Qed.

(** The call touches no clone and no message but its own. *)
Lemma call_frame sched :
  (forall b, b <> a0 h0 -> heap (shared (run sched)) !! b = h0 !! b)
  /\ (forall b, b <> mm m0 -> msgs (shared (run sched)) !! b = m0 !! b)
  /\ (cge 1 (cpc (caller (run sched))) = true ->
      delegate (caller (run sched)) = a0 h0).
Proof.
  at_state sched s H.
  all: simpl; repeat split; try discriminate; try reflexivity.
  all: intros b Hb; first [apply heap_of_other | apply msgs_of_other];
    exact Hb.
Qed.


(** *** The void specialisations: the states of a call *)

Ltac unfold_void :=
  unfold step_void, caller_step_void, target_step_void, shared_at_void,
    caller_at_pc_void, target_at_pc_void, clone_at_void;
  cbn [cpc tpc caller target];
  unfold_model.

Ltac run_void := unfold_void; reduce_store; repeat (branch; reduce_store).

(** Take the invariant of a void call apart into the concrete states it
    allows. *)
Ltac states_void s H :=
  let Hr := fresh "Hr" in
  let Hm := fresh "Hm" in
  let Hs := fresh "Hs" in
  let Hc := fresh "Hc" in
  let Ht := fresh "Ht" in
  let Hcalls := fresh "Hcalls" in
  let Hfrees := fresh "Hfrees" in
  let Hwaits := fresh "Hwaits" in
  let Etd := fresh "Etd" in
  let sh := fresh "sh" in
  let c := fresh "c" in
  let t := fresh "t" in
  let tr := fresh "tr" in
  let f := fresh "f" in
  let k := fresh "k" in
  let j := fresh "j" in
  let ok := fresh "ok" in
  let td := fresh "td" in
  let x := fresh "x" in
  destruct H as [Hr Hm Hs Hc Ht Hcalls Hfrees Hwaits];
  destruct s as [sh c t tr f];
  simpl in Hr, Hm, Hs, Hc, Ht, Hcalls, Hfrees, Hwaits;
  pose proof (f_equal (@t_deleteData Param RetType) Ht) as Etd;
  simpl in Etd;
  remember (cpc c) as k eqn:Ek; remember (tpc t) as j eqn:Ej;
  remember (m_success (self sh)) as ok eqn:Eok;
  remember (t_deleteData t) as td eqn:Etd';
  remember (mem sh) as x eqn:Ex;
  clear Ek Ej Eok Etd' Ex; subst sh c t;
  destruct k, j, ok, td; try discriminate Hr; try discriminate Etd;
  clear Hr Etd; simpl in Hm, Hcalls, Hfrees, Hwaits; try subst x.

Lemma inv_start_void : InvVoid start.
Proof. constructor; simpl; reflexivity. Qed.

(** A step of a void call keeps the invariant; it can only fault by
    calling an unbound target. *)
Lemma inv_step_void ch s :
  InvVoid s ->
  match step_void call ch s with
  | Next s' => InvVoid s'
  | Blocked => True
  | Fault => call (m_target d0) arg mem0 = None
  end.
Proof.
  intros H. states_void s H.
  all: destruct ch as [[|]|].
  all: run_void; try exact I; try assumption.
  all: constructor; simpl; try reflexivity; try assumption;
    try (eexists; eassumption).
  all: try (unfold_void; reduce_store; reflexivity).
  all: rewrite count_app; simpl; rewrite ?Hcalls, ?Hfrees, ?Hwaits;
    reflexivity.
Qed.

Lemma inv_fault_flag_void s b :
  InvVoid s -> InvVoid (mkState (shared s) (caller s) (target s) (trace s) b).
Proof. intros []; constructor; assumption. Qed.

Lemma exec_inv_void sched s : InvVoid s -> InvVoid (exec_void call sched s).
Proof.
  revert s. induction sched as [|ch rest IH]; intros s H; simpl;
    [assumption|].
  pose proof (inv_step_void ch H) as Hs.
  destruct (step_void call ch s);
    [apply IH, Hs | apply IH, H | apply inv_fault_flag_void, H].
Qed.

Lemma run_inv_void sched : InvVoid (run_void sched).
Proof. apply exec_inv_void, inv_start_void. Qed.


(** *** Free-function delegates that lock first: the states of a call *)

Ltac unfold_free :=
  unfold step_free, target_step_free, shared_at_free, target_at_pc_free,
    clone_at_free;
  cbn [cpc tpc caller target];
  unfold_model.

Ltac run_free := unfold_free; reduce_store; repeat (branch; reduce_store).

Ltac states_free s H :=
  let Hr := fresh "Hr" in
  let Hm := fresh "Hm" in
  let Hs := fresh "Hs" in
  let Hc := fresh "Hc" in
  let Ht := fresh "Ht" in
  let Hcalls := fresh "Hcalls" in
  let Hfrees := fresh "Hfrees" in
  let Hreads := fresh "Hreads" in
  let Hunl := fresh "Hunl" in
  let sh := fresh "sh" in
  let c := fresh "c" in
  let t := fresh "t" in
  let tr := fresh "tr" in
  let f := fresh "f" in
  let k := fresh "k" in
  let j := fresh "j" in
  let ok := fresh "ok" in
  let ex := fresh "ex" in
  let x := fresh "x" in
  let r := fresh "r" in
  destruct H as [Hr Hm Hs Hc Ht Hcalls Hfrees Hreads Hunl];
  destruct s as [sh c t tr f];
  simpl in Hr, Hm, Hs, Hc, Ht, Hcalls, Hfrees, Hreads, Hunl;
  remember (cpc c) as k eqn:Ek; remember (tpc t) as j eqn:Ej;
  remember (m_success (self sh)) as ok eqn:Eok;
  remember (t_ret t) as ex eqn:Eex;
  remember (mem sh) as x eqn:Ex;
  clear Ek Ej Eok Eex Ex; subst sh c t;
  destruct k, j, ok, ex as [r|]; try discriminate Hr; clear Hr;
  simpl in Hm, Hcalls, Hfrees, Hreads; subst.

Lemma inv_start_free : InvFree start.
Proof. constructor; simpl; reflexivity. Qed.

(** A step keeps the invariant; it can only fault by calling an unbound
    target. *)
Lemma inv_step_free ch s :
  InvFree s ->
  match step_free call ch s with
  | Next s' => InvFree s'
  | Blocked => True
  | Fault => call (m_target d0) arg mem0 = None
  end.
Proof.
  intros H. states_free s H.
  all: destruct ch as [[|]|].
  all: run_free; try exact I; try assumption.
  all: constructor; simpl; try reflexivity; try assumption.
  all: try (unfold_free; reduce_store; reflexivity).
  all: rewrite count_app; simpl; rewrite ?Hcalls, ?Hfrees, ?Hreads, ?Hunl;
    reflexivity.
Qed.

Lemma inv_fault_flag_free s b :
  InvFree s -> InvFree (mkState (shared s) (caller s) (target s) (trace s) b).
Proof. intros []; constructor; assumption. Qed.

Lemma exec_inv_free sched s : InvFree s -> InvFree (exec_free call sched s).
Proof.
  revert s. induction sched as [|ch rest IH]; intros s H; simpl;
    [assumption|].
  pose proof (inv_step_free ch H) as Hs.
  destruct (step_free call ch s);
    [apply IH, Hs | apply IH, H | apply inv_fault_flag_free, H].
Qed.

Lemma run_inv_free sched : InvFree (run_free sched).
Proof. apply exec_inv_free, inv_start_free. Qed.

(** X18: a [DelegateInvoke] that takes the lock first reads the arguments
    of the message once it has the lock, and never without it; the
    [DelegateInvoke] of the other specialisations reads them once, before
    it takes the lock. *)
Theorem argument_read_under_lock sched :
  count is_read (trace (run_free sched))
  = (if tge 3 (tpc (target (run_free sched))) then 1 else 0)%nat
  /\ count is_unlocked_read (trace (run_free sched)) = 0%nat
  /\ count is_read (trace (run sched))
     = (if tge 2 (tpc (target (run sched))) then 1 else 0)%nat
  /\ count is_unlocked_read (trace (run sched))
     = count is_read (trace (run sched)).
Proof.
  pose proof (run_inv_free sched) as H.
  split; [exact (invf_reads H)|]. split; [exact (invf_unlocked H)|].
  clear H. at_state sched s H.
  all: simpl; rewrite (count_by_actor is_read),
    (count_by_actor is_unlocked_read), Hch, Hth; split; reflexivity.
Qed.

(** *** The void free-function delegate that locks first: the states of a
    call *)

Ltac unfold_free_void :=
  unfold step_free_void, caller_step_void, target_step_free_void,
    target_step_void, target_step_free, shared_at_free_void,
    caller_at_pc_void, target_at_pc_free_void, clone_at_free_void;
  cbn [cpc tpc caller target];
  unfold_model.

Ltac run_free_void :=
  unfold_free_void; reduce_store; repeat (branch; reduce_store).

Ltac states_free_void s H :=
  let Hr := fresh "Hr" in
  let Hm := fresh "Hm" in
  let Hs := fresh "Hs" in
  let Hc := fresh "Hc" in
  let Ht := fresh "Ht" in
  let Hcalls := fresh "Hcalls" in
  let Hfrees := fresh "Hfrees" in
  let Hwaits := fresh "Hwaits" in
  let Hunl := fresh "Hunl" in
  let Etd := fresh "Etd" in
  let sh := fresh "sh" in
  let c := fresh "c" in
  let t := fresh "t" in
  let tr := fresh "tr" in
  let f := fresh "f" in
  let k := fresh "k" in
  let j := fresh "j" in
  let ok := fresh "ok" in
  let td := fresh "td" in
  let x := fresh "x" in
  destruct H as [Hr Hm Hs Hc Ht Hcalls Hfrees Hwaits Hunl];
  destruct s as [sh c t tr f];
  simpl in Hr, Hm, Hs, Hc, Ht, Hcalls, Hfrees, Hwaits, Hunl;
  pose proof (f_equal (@t_deleteData Param RetType) Ht) as Etd;
  simpl in Etd;
  remember (cpc c) as k eqn:Ek; remember (tpc t) as j eqn:Ej;
  remember (m_success (self sh)) as ok eqn:Eok;
  remember (t_deleteData t) as td eqn:Etd';
  remember (mem sh) as x eqn:Ex;
  clear Ek Ej Eok Etd' Ex; subst sh c t;
  destruct k, j, ok, td; try discriminate Hr; try discriminate Etd;
  clear Hr Etd; simpl in Hm, Hcalls, Hfrees, Hwaits; try subst x.

Lemma inv_start_free_void : InvFreeVoid start.
Proof. constructor; simpl; reflexivity. Qed.

Lemma inv_step_free_void ch s :
  InvFreeVoid s ->
  match step_free_void call ch s with
  | Next s' => InvFreeVoid s'
  | Blocked => True
  | Fault => call (m_target d0) arg mem0 = None
  end.
Proof.
  intros H. states_free_void s H.
  all: destruct ch as [[|]|].
  all: run_free_void; try exact I; try assumption.
  all: constructor; simpl; try reflexivity; try assumption;
    try (eexists; eassumption).
  all: try (unfold_free_void; reduce_store; reflexivity).
  all: rewrite count_app; simpl;
    rewrite ?Hcalls, ?Hfrees, ?Hwaits, ?Hunl; reflexivity.
Qed.

Lemma inv_fault_flag_free_void s b :
  InvFreeVoid s ->
  InvFreeVoid (mkState (shared s) (caller s) (target s) (trace s) b).
Proof. intros []; constructor; assumption. Qed.

Lemma exec_inv_free_void sched s :
  InvFreeVoid s -> InvFreeVoid (exec_free_void call sched s).
Proof.
  revert s. induction sched as [|ch rest IH]; intros s H; simpl;
    [assumption|].
  pose proof (inv_step_free_void ch H) as Hs.
  destruct (step_free_void call ch s);
    [apply IH, Hs | apply IH, H | apply inv_fault_flag_free_void, H].
Qed.

Lemma run_inv_free_void sched : InvFreeVoid (run_free_void sched).
Proof. apply exec_inv_free_void, inv_start_free_void. Qed.

(** *** Calls of a bound target *)

Variable r0 : RetType.
Variable mem1 : Mem.
Hypothesis Hbound : call (m_target d0) arg mem0 = Some (r0, mem1).

Ltac bound_result Hm :=
  try (rewrite Hbound in Hm; injection Hm as <- <-).

Lemma exec_no_fault sched s :
  Inv s -> faulted s = false -> faulted (exec call sched s) = false.
Proof.
  revert s. induction sched as [|ch rest IH]; intros s H Hf; simpl;
    [assumption|].
  pose proof (inv_step ch H) as Hs.
  destruct (step call ch s) eqn:E.
  - apply IH; [assumption|]. apply step_faulted in E. congruence.
  - apply IH; assumption.
  - congruence.
Qed.

(** Unless both threads have ended, one of them can take a step: the
    target, or else the caller without its wait expiring. *)
Lemma inv_progress s :
  Inv s -> ~ finished s -> exists ch s', step call ch s = Next s'.
Proof.
  intros H Hnf. unfold finished in Hnf. states s H; simpl in Hnf.
  all: try (exfalso; apply Hnf; split; reflexivity).
  all: clear Hnf Hch Hth.
  all: first
    [ exists RunTarget; eexists; unfold_model; reduce_store;
      rewrite ?Hbound; reduce_store; reflexivity
    | exists (RunCaller false); eexists; unfold_model; reduce_store;
      repeat (branch; reduce_store); reflexivity ].
Qed.

Lemma can_finish_fuel n s :
  (fuel_of s <= n)%nat -> Inv s ->
  exists sched, finished (exec call sched s).
Proof.
  revert s. induction n as [|n IH]; intros s Hn H;
    (destruct (finished_dec s) as [Hf|Hf]; [exists []; exact Hf|]);
    destruct (inv_progress H Hf) as (ch & s' & Hs);
    pose proof Hs as Hfuel; apply step_fuel in Hfuel; [lia|].
  pose proof (inv_step ch H) as Hi. rewrite Hs in Hi.
  destruct (IH s') as [sched Hsched]; [lia | assumption |].
  exists (ch :: sched). simpl. rewrite Hs. exact Hsched.
Qed.

(** From wherever a threaded call of a bound target stands, both threads
    can run to their end. *)
Lemma can_finish s : Inv s -> exists sched, finished (exec call sched s).
Proof. apply (can_finish_fuel (n := fuel_of s)). lia. Qed.

(** C2: when the caller is about to dispatch, the count of the clone is 2;
    as long as the clone exists its count is 2 less one for each decrement
    made, each thread decrements at most once, and the count is never
    negative; the clone and its message are freed at most once, and only
    by a thread whose decrement gave 0; no run faults (no access to freed
    memory, no second free).  When both threads have ended each has
    decremented once, there was one free, and neither the clone nor the
    message is left; and both threads can always run to their end. *)
Theorem refcount_protocol sched :
  (cpc (caller (run sched)) = C_Dispatch ->
   exists d,
     heap (shared (run sched)) !! delegate (caller (run sched)) = Some d
     /\ m_refCnt d = 2)
  /\ (cge 2 (cpc (caller (run sched))) = true ->
      forall d,
        heap (shared (run sched)) !! delegate (caller (run sched)) = Some d ->
        m_refCnt d
        = 2 - Z.of_nat (count (is_dec_by Caller) (trace (run sched)))
            - Z.of_nat (count (is_dec_by Target) (trace (run sched)))
        /\ 0 <= m_refCnt d)
  /\ (count (is_dec_by Caller) (trace (run sched)) <= 1)%nat
  /\ (count (is_dec_by Target) (trace (run sched)) <= 1)%nat
  /\ (count is_free (trace (run sched)) <= 1)%nat
  /\ (forall e, In e (trace (run sched)) -> is_free e = true ->
      In (mkEvent (actor e) true (ADec 0)) (trace (run sched)))
  /\ faulted (run sched) = false
  /\ (finished (run sched) ->
      count (is_dec_by Caller) (trace (run sched)) = 1%nat
      /\ count (is_dec_by Target) (trace (run sched)) = 1%nat
      /\ count is_free (trace (run sched)) = 1%nat
      /\ heap (shared (run sched)) !! delegate (caller (run sched)) = None
      /\ msgs (shared (run sched)) !! msg (caller (run sched)) = None)
  /\ exists more, finished (exec call more (run sched)).
Proof.
  pose proof (exec_no_fault sched inv_start eq_refl) as Hnf.
  pose proof (can_finish (run_inv sched)) as Hfin.
  at_state sched s H.
  all: simpl in Hnf, Hfin |- *.
  all: rewrite ?heap_of_lookup, ?msgs_of_lookup.
  all: rewrite !(count_by_actor _ tr), !Hch, !Hth.
  all: repeat match goal with |- _ /\ _ => split end.
  all: try assumption.
  all: try discriminate.
  all: try (intros _; eexists; split; reflexivity).
  all: try (unfold count; histories; lia).
  all: try (intros _ d [= <-]; unfold count; histories; lia).
  all: try (intros [? ?]; discriminate).
  all: try (intros e He Hf;
    destruct (in_trace_cases _ _ He) as [Hi|Hi];
    [rewrite Hch in Hi | rewrite Hth in Hi]; histories;
    each_event Hi ltac:(first [discriminate Hf
                              | in_trace Caller Hch | in_trace Target Hth])).
  all: intros _; repeat split; unfold count; histories; lia.
Qed.

(** C3, as amended: in a call that no other call through the same
    delegate object overlaps (the one caller of [exec]), if the caller's
    wait returned true and [operator()] has returned, then [IsSuccess()]
    is true, the caller has copied the clone's result slot into its own
    result holder, and [GetRetVal()] and the value [operator()] returned
    are the value [r0] the bound function computed for the argument of the
    call, on the target thread. *)
Theorem success_result sched :
  In (mkEvent Caller false (AWait true)) (trace (run sched)) ->
  cpc (caller (run sched)) = C_Done ->
  IsSuccess (self (shared (run sched))) = true
  /\ GetRetVal (self (shared (run sched))) = Some r0
  /\ result (caller (run sched)) = Some (Some r0)
  /\ In (mkEvent Caller false (ACopy (Some r0))) (trace (run sched))
  /\ In (mkEvent Target true (AInvoke arg r0)) (trace (run sched))
  /\ In (mkEvent Target true (AStore r0)) (trace (run sched)).
Proof.
  at_state sched s H.
  all: simpl; intros Hw Hk; try discriminate Hk; clear Hk.
  all: apply (in_by_actor _ _) in Hw; simpl in Hw; rewrite Hch in Hw.
  all: histories; bound_result Hm.
  all: try not_in_list Hw.
  all: repeat split;
    first [reflexivity | in_trace Caller Hch | in_trace Target Hth].
Qed.

(** After a wait that timed out. *)
Lemma timeout_core s :
  Inv s ->
  In (mkEvent Caller false (AWait false)) (trace s) ->
  IsSuccess (self (shared s)) = false
  /\ count is_copy (trace s) = 0%nat
  /\ GetRetVal (self (shared s)) = GetRetVal d0
  /\ (cpc (caller s) = C_Done -> result (caller s) = Some (GetRetVal d0)).
Proof.
  intros H. states s H.
  all: simpl; intros Hw.
  all: apply (in_by_actor _ _) in Hw; simpl in Hw; rewrite Hch in Hw.
  all: rewrite count_by_actor, Hch, Hth; unfold count.
  all: histories.
  all: try not_in_list Hw.
  all: repeat split; try reflexivity; discriminate.
Qed.


(** C6: what the target thread has done is always a beginning of one of two
    sequences.  Either it took the message, read the argument, locked,
    found the count at 2, called the bound function with the argument of
    the message, stored the result [r0] in the result slot, raised the
    signal, decremented and unlocked; or it found the count different from
    2 and then only decremented, unlocked and freed: no call, no signal.
    Each of these statements does what its name says to the store: the
    check reads the count of the locked clone and goes on to the call
    exactly if it is 2; the call runs the bound function on the argument
    held by the message, in the memory as it was, and leaves the memory
    [mem1]; the store writes [r0] into the result slot of the clone; the
    signal adds one to the semaphore of the clone, which held no signal,
    and a caller still waiting then gets true from its wait; the decrement
    takes one off the count and sets [deleteData] exactly if the count has
    reached 0.  As long as the function has not been called the memory is
    untouched, no signal is pending and the result slot is as the clone
    got it.  The target thread can always run [DelegateInvoke] to its
    end, and then it has done one of the two sequences in full. *)
Theorem delegate_invoke_order sched :
  ((exists rest,
      by_actor Target (trace (run sched)) ++ rest
      = t_setup m0 arg ++ t_run arg r0)
   \/ (exists rest,
         by_actor Target (trace (run sched)) ++ rest
         = t_setup m0 arg ++ t_skip))
  /\ (tpc (target (run sched)) = T_Done ->
      by_actor Target (trace (run sched))
      = t_script m0 arg (t_ret (target (run sched)))
      /\ (t_ret (target (run sched)) = Some r0
          \/ t_ret (target (run sched)) = None))
  /\ (tpc (target (run sched)) = T_Signal ->
      exists d,
        heap (shared (run sched)) !! this (target (run sched)) = Some d
        /\ m_retVal d = Some r0
        /\ sem_count (m_sema d) = 0%nat)
  /\ (tpc (target (run sched)) = T_Check ->
      exists d s',
        heap (shared (run sched)) !! this (target (run sched)) = Some d
        /\ m_lock d = Some Target
        /\ step call RunTarget (run sched) = Next s'
        /\ tpc (target s')
           = (if m_refCnt d =? 2 then T_Invoke else T_Dec)
        /\ shared s' = shared (run sched))
  /\ (tpc (target (run sched)) = T_Invoke ->
      exists s',
        step call RunTarget (run sched) = Next s'
        /\ msgs (shared (run sched)) !! t_msg (target (run sched))
           = Some (mkMsg (this (target (run sched))) arg)
        /\ param1 (target (run sched)) = Some arg
        /\ mem (shared (run sched)) = mem0
        /\ mem (shared s') = mem1
        /\ t_ret (target s') = Some r0
        /\ tpc (target s') = T_Store)
  /\ (tpc (target (run sched)) = T_Store ->
      exists s' d',
        step call RunTarget (run sched) = Next s'
        /\ heap (shared s') !! this (target s') = Some d'
        /\ m_retVal d' = Some r0
        /\ tpc (target s') = T_Signal)
  /\ (tpc (target (run sched)) = T_Signal ->
      exists s' d d',
        step call RunTarget (run sched) = Next s'
        /\ heap (shared (run sched)) !! this (target (run sched)) = Some d
        /\ heap (shared s') !! this (target s') = Some d'
        /\ sem_count (m_sema d') = S (sem_count (m_sema d))
        /\ tpc (target s') = T_Dec)
  /\ (tpc (target (run sched)) = T_Dec ->
      exists s' d d',
        step call RunTarget (run sched) = Next s'
        /\ heap (shared (run sched)) !! this (target (run sched)) = Some d
        /\ heap (shared s') !! this (target s') = Some d'
        /\ m_refCnt d' = m_refCnt d - 1
        /\ t_deleteData (target s') = (m_refCnt d' =? 0)
        /\ tpc (target s') = T_Unlock)
  /\ (t_ret (target (run sched)) = None ->
      mem (shared (run sched)) = mem0
      /\ forall d, heap (shared (run sched)) !! a0 h0 = Some d ->
           sem_count (m_sema d) = 0%nat /\ m_retVal d = m_retVal d0)
  /\ (tge 7 (tpc (target (run sched))) = true ->
      t_ret (target (run sched)) = Some r0 ->
      cpc (caller (run sched)) = C_Wait ->
      exists s',
        step call (RunCaller false) (run sched) = Next s'
        /\ IsSuccess (self (shared s')) = true)
  /\ exists more, tpc (target (exec call more (run sched))) = T_Done.
Proof.
  pose proof (can_finish (run_inv sched)) as [more [_ Hfin]].
  split; [|split; [|split; [|split; [|split; [|split; [|split; [|split;
    [|split; [|split; [|exists more; exact Hfin]]]]]]]]]];
    clear more Hfin.
  all: at_state sched s H; simpl; rewrite ?Hth; bound_result Hm.
  all: try discriminate.
  all: try (intros _; split; [reflexivity|auto]; fail).
  all: try (intros _; rewrite heap_of_lookup; eexists;
            split; [reflexivity|split; reflexivity]).
  all: try (histories;
    first [left; eexists; reflexivity | right; eexists; reflexivity]; fail).
  all: try (intros Hj Hr Hk;
            first [discriminate Hj | discriminate Hr | discriminate Hk]).
  all: try (intros _; split; [reflexivity|]; intros d Hd;
            rewrite heap_of_lookup in Hd;
            first [discriminate Hd
                  | injection Hd as <-; split; reflexivity]).
  all: intros; unfold_model; reduce_store; rewrite ?Hbound; reduce_store;
    repeat (match goal with |- exists _, _ => eexists end);
    repeat split; reduce_store; try reflexivity.
Qed.


(** *** More about a threaded call *)

(** The caller's wait returns false only for a timeout other than
    [WAIT_INFINITE]. *)
Lemma caller_wait_false expired (sh sh' : Shared Param RetType Mem)
  (c c' : CallerSt Param RetType) :
  caller_step call expired sh c = Next (sh', c', AWait false) ->
  m_timeout (self sh) <> WAIT_INFINITE.
Proof.
  unfold caller_step, Semaphore_Wait.
  destruct (cpc c); intros H; repeat case_match; simplify_eq; assumption.
Qed.

Lemma step_event ch (s s' : State Param RetType Mem) :
  step call ch s = Next s' ->
  exists e, trace s' = trace s ++ [e]
    /\ (actor e = Caller ->
        exists expired sh c,
          caller_step call expired (shared s) (caller s)
          = Next (sh, c, act e)).
Proof.
  unfold step. destruct ch.
  - destruct (caller_step call expired (shared s) (caller s))
      as [[[sh c] a]| |] eqn:E; try discriminate.
    intros [= <-]. eexists. split; [reflexivity|]. simpl. eauto.
  - destruct (target_step call (shared s) (target s))
      as [[[sh t] a]| |] eqn:E; try discriminate.
    intros [= <-]. eexists. split; [reflexivity|]. simpl. discriminate.
Qed.

Lemma inv_timeout s : Inv s -> m_timeout (self (shared s)) = m_timeout d0.
Proof.
  intros H. rewrite (inv_shared H). unfold shared_at, self_at. simpl.
  destruct (cge 7 _); reflexivity.
Qed.

Lemma no_expiry sched s :
  m_timeout d0 = WAIT_INFINITE ->
  Inv s ->
  ~ In (mkEvent Caller false (AWait false)) (trace s) ->
  ~ In (mkEvent Caller false (AWait false)) (trace (exec call sched s)).
Proof.
  intros Hinf. revert s.
  induction sched as [|ch rest IH]; intros s H Hno; simpl; [assumption|].
  pose proof (inv_step ch H) as Hs.
  destruct (step call ch s) as [s'| |] eqn:E; [|apply IH; assumption|exact Hno].
  apply IH; [assumption|].
  apply step_event in E as (e & -> & He). intros Hin.
  apply in_app_or in Hin as [Hin|[Heq|[]]]; [exact (Hno Hin)|].
  subst e. destruct (He eq_refl) as (expired & sh & c & Hc).
  apply caller_wait_false in Hc. rewrite (inv_timeout H) in Hc.
  contradiction.
Qed.

(** X6: through a delegate whose timeout is [WAIT_INFINITE] the caller's
    wait never returns false; whenever [operator()] has returned, its wait
    has returned true, it has copied the result [r0] of the bound function
    out of its clone, the function was called exactly once, and it is the
    caller that freed the clone.  In a call that no other call through the
    same delegate object overlaps (the one caller of [exec]),
    [IsSuccess()] is then true and the value returned is [r0]. *)
Theorem infinite_wait sched :
  m_timeout d0 = WAIT_INFINITE ->
  ~ In (mkEvent Caller false (AWait false)) (trace (run sched))
  /\ (cpc (caller (run sched)) = C_Done ->
      In (mkEvent Caller false (AWait true)) (trace (run sched))
      /\ In (mkEvent Caller false (ACopy (Some r0))) (trace (run sched))
      /\ count is_invocation (trace (run sched)) = 1%nat
      /\ In (mkEvent Caller false AFree) (trace (run sched))
      /\ IsSuccess (self (shared (run sched))) = true
      /\ result (caller (run sched)) = Some (Some r0)).
Proof.
  intros Hinf.
  assert (Hno : ~ In (mkEvent Caller false (AWait false))
                    (trace (run sched))).
  { apply no_expiry; [assumption | apply inv_start | simpl; tauto]. }
  split; [exact Hno|].
  at_state sched s H.
  all: simpl in Hno |- *; intros Hk; try discriminate Hk; clear Hk.
  all: rewrite count_by_actor, Hch, Hth; bound_result Hm.
  all: try (exfalso; apply Hno; in_trace Caller Hch).
  all: repeat split; try reflexivity; in_trace Caller Hch.
Qed.

Lemma exec_app l1 l2 (s : State Param RetType Mem) :
  faulted (exec call l1 s) = false ->
  exec call (l1 ++ l2) s = exec call l2 (exec call l1 s).
Proof.
  revert s. induction l1 as [|ch l1 IH]; intros s; simpl; [reflexivity|].
  destruct (step call ch s); [apply IH | apply IH | discriminate].
Qed.

(** The next statement of a thread that is not at a wait or a lock. *)
Lemma caller_sets_up s :
  Inv s -> tpc (target s) = T_Idle -> cge 6 (cpc (caller s)) = false ->
  exists s', step call (RunCaller false) s = Next s'
    /\ tpc (target s') = T_Idle
    /\ crank (cpc (caller s')) = S (crank (cpc (caller s))).
Proof.
  intros H. states s H; simpl; intros Hj Hk;
    try discriminate Hj; try discriminate Hk.
  all: eexists; run_model; split; [reflexivity|split; reflexivity].
Qed.

Lemma target_runs_function s :
  Inv s -> cpc (caller s) = C_Wait -> tge 5 (tpc (target s)) = false ->
  exists s', step call RunTarget s = Next s'
    /\ cpc (caller s') = C_Wait
    /\ trank (tpc (target s')) = S (trank (tpc (target s))).
Proof.
  intros H. states s H; simpl; intros Hk Hj;
    try discriminate Hj; try discriminate Hk.
  all: eexists; unfold_model; reduce_store; rewrite ?Hbound; reduce_store;
    split; [reflexivity|split; reflexivity].
Qed.

Lemma caller_gives_up s :
  m_timeout d0 <> WAIT_INFINITE ->
  Inv s -> cpc (caller s) = C_Wait ->
  exists s', step call (RunCaller true) s = Next s'
    /\ tpc (target s') = tpc (target s)
    /\ In (mkEvent Caller false (AWait false)) (trace s').
Proof.
  intros Hfin H. states s H; simpl; intros Hk; try discriminate Hk.
  all: eexists; run_model; split; [reflexivity|split; [reflexivity|]].
  all: simpl; apply in_or_app; right; left; reflexivity.
Qed.

(** X7: when both threads of a threaded call have ended, the heap of
    clones and the heap of messages are exactly what they were before the
    call and the queue of the target thread is empty: nothing is leaked and
    nothing else was freed. *)
Theorem store_restored sched :
  finished (run sched) ->
  heap (shared (run sched)) = h0
  /\ msgs (shared (run sched)) = m0
  /\ queue (shared (run sched)) = [].
Proof.
  at_state sched s H.
  all: intros [Hk Hj]; simpl in Hk, Hj; try discriminate Hk;
    try discriminate Hj.
  all: simpl; rewrite heap_of_none, msgs_of_none; repeat split.
Qed.

(** X8: the caller frees the clone and the message only in runs where the
    bound function was called; the target thread frees them only in runs
    where it was not called, and then the caller's wait had timed out.
    When both threads have ended, one of the two has freed. *)
Theorem freeing_thread sched :
  (In (mkEvent Caller false AFree) (trace (run sched)) ->
   count is_invocation (trace (run sched)) = 1%nat)
  /\ (In (mkEvent Target false AFree) (trace (run sched)) ->
      count is_invocation (trace (run sched)) = 0%nat
      /\ In (mkEvent Caller false (AWait false)) (trace (run sched)))
  /\ (finished (run sched) ->
      In (mkEvent Caller false AFree) (trace (run sched))
      \/ In (mkEvent Target false AFree) (trace (run sched))).
Proof.
  at_state sched s H.
  all: simpl; rewrite count_by_actor, Hch, Hth.
  all: split; [|split].
  all: try (intros [Hk Hj]; simpl in Hk, Hj;
            first [discriminate Hk | discriminate Hj]).
  all: try (intros _;
            first [left; in_trace Caller Hch | right; in_trace Target Hth]).
  all: intros Hf; apply (in_by_actor _ _) in Hf; simpl in Hf;
    rewrite ?Hch, ?Hth in Hf; histories; try not_in_list Hf.
  all: repeat split; try reflexivity; in_trace Caller Hch.
Qed.

(** X9: at every point of a threaded call the delegate it goes through
    compares ([operator==]) with any other delegate as it did before the
    call, and equal to what it was: calling a delegate does not change
    what it is equal to. *)
Theorem call_keeps_equality sched :
  Delegate_eqb (self (shared (run sched))) (Some d0) = true
  /\ forall rhs,
       Delegate_eqb (self (shared (run sched))) rhs = Delegate_eqb d0 rhs.
Proof.
  assert (Hsame : forall rhs,
            Delegate_eqb (self (shared (run sched))) rhs
            = Delegate_eqb d0 rhs).
  { at_state sched s H. all: intros [rhs|]; reflexivity. }
  split; [|exact Hsame].
  rewrite Hsame. unfold Delegate_eqb.
  rewrite Z.eqb_refl. apply Callable_eqb_eq. reflexivity.
Qed.

(** X10: while the target thread is between finding the count at 2 and
    its decrement (so while the bound function runs), the caller has not
    decremented, let alone returned, and a caller that has left its wait,
    timed out or not ([b]), is blocked at the lock: a timeout does not
    bound the time [operator()] takes. *)
Theorem caller_waits_for_function sched b :
  tge 4 (tpc (target (run sched))) = true ->
  tge 7 (tpc (target (run sched))) = false ->
  cge 9 (cpc (caller (run sched))) = false
  /\ (cpc (caller (run sched)) = C_Lock ->
      step call (RunCaller b) (run sched) = Blocked).
Proof.
  at_state sched s H.
  all: simpl; intros H4 H7; try discriminate H4; try discriminate H7.
  all: split; [reflexivity|].
  all: intros Hk; try discriminate Hk.
  all: run_model; reflexivity.
Qed.

(** X11: a threaded call changes the memory of the bound function through
    the call of that function only: in a run without a call the memory is
    as before, in a run with the call it is what the one call of the
    function on the argument left. *)
Theorem memory_effect sched :
  (count is_invocation (trace (run sched)) = 0%nat ->
   mem (shared (run sched)) = mem0)
  /\ (count is_invocation (trace (run sched)) = 1%nat ->
      mem (shared (run sched)) = mem1
      /\ t_ret (target (run sched)) = Some r0).
Proof.
  at_state sched s H.
  all: simpl; rewrite count_by_actor, Hch, Hth; bound_result Hm.
  all: split; intros Hc; try reflexivity.
  all: try (split; reflexivity).
  all: exfalso; revert Hc; unfold count; histories; lia.
Qed.

Lemma run_app l1 l2 : run (l1 ++ l2) = exec call l2 (run l1).
Proof.
  apply exec_app. apply exec_no_fault; [apply inv_start | reflexivity].
Qed.

Lemma run_snoc sched ch s' :
  step call ch (run sched) = Next s' -> run (sched ++ [ch]) = s'.
Proof. intros Hs. rewrite run_app. simpl. rewrite Hs. reflexivity. Qed.

Lemma reach_wait n :
  (n <= 6)%nat ->
  exists sched,
    crank (cpc (caller (run sched))) = n
    /\ tpc (target (run sched)) = T_Idle.
Proof.
  induction n as [|n IH]; intros Hn.
  - exists []. split; reflexivity.
  - destruct IH as (sched & Hk & Hj); [lia|].
    destruct (caller_sets_up (run_inv sched) Hj) as (s' & Hs & Hj' & Hk').
    { unfold cge. rewrite Hk. apply Nat.leb_gt. lia. }
    exists (sched ++ [RunCaller false]).
    rewrite (run_snoc _ _ Hs). split; [lia | exact Hj'].
Qed.

Lemma reach_function n :
  (n <= 5)%nat ->
  exists sched,
    cpc (caller (run sched)) = C_Wait
    /\ trank (tpc (target (run sched))) = n.
Proof.
  induction n as [|n IH]; intros Hn.
  - destruct (reach_wait (n := 6)) as (sched & Hk & Hj); [lia|].
    exists sched. rewrite Hj. split; [|reflexivity].
    destruct (cpc (caller (run sched))); try discriminate Hk. reflexivity.
  - destruct IH as (sched & Hk & Hj); [lia|].
    destruct (target_runs_function (run_inv sched) Hk) as (s' & Hs & Hk' & Hj').
    { unfold tge. rewrite Hj. apply Nat.leb_gt. lia. }
    exists (sched ++ [RunTarget]).
    rewrite (run_snoc _ _ Hs). split; [exact Hk' | lia].
Qed.

Lemma function_has_run s :
  Inv s -> trank (tpc (target s)) = 5%nat ->
  In (mkEvent Target true (AInvoke arg r0)) (trace s).
Proof.
  intros H. states s H; simpl; intros Hj; try discriminate Hj.
  all: bound_result Hm; in_trace Target Hth.
Qed.

Lemma gave_up_after_run s :
  Inv s -> finished s ->
  In (mkEvent Caller false (AWait false)) (trace s) ->
  In (mkEvent Target true (AInvoke arg r0)) (trace s) ->
  IsSuccess (self (shared s)) = false
  /\ result (caller s) = Some (GetRetVal d0)
  /\ count is_invocation (trace s) = 1%nat
  /\ mem (shared s) = mem1.
Proof.
  intros H. states s H; intros [Hk Hj]; simpl in Hk, Hj;
    try discriminate Hk; try discriminate Hj.
  all: simpl; intros Hw Hi.
  all: apply (in_by_actor _ _) in Hw; simpl in Hw; rewrite Hch in Hw.
  all: apply (in_by_actor _ _) in Hi; simpl in Hi; rewrite Hth in Hi.
  all: rewrite count_by_actor, Hch, Hth; bound_result Hm.
  all: histories; try not_in_list Hw; try not_in_list Hi.
  all: repeat split; reflexivity.
Qed.

(** X12: a timeout does not cancel the call: for every delegate with a
    target thread, a bound function and a timeout other than
    [WAIT_INFINITE] there is a run without fault in which [operator()]
    returns with [IsSuccess()] false and the old content of the result
    holder, and the bound function has nonetheless been called, once, and
    has changed the memory. *)
Theorem timeout_does_not_cancel :
  m_timeout d0 <> WAIT_INFINITE ->
  exists sched,
    finished (run sched)
    /\ faulted (run sched) = false
    /\ IsSuccess (self (shared (run sched))) = false
    /\ result (caller (run sched)) = Some (GetRetVal d0)
    /\ count is_invocation (trace (run sched)) = 1%nat
    /\ mem (shared (run sched)) = mem1.
Proof.
  intros Hfin.
  destruct (reach_function (n := 5)) as (sched & Hk & Hj); [lia|].
  pose proof (function_has_run (run_inv sched) Hj) as Hran.
  destruct (caller_gives_up Hfin (run_inv sched) Hk) as (s' & Hs & _ & Hw).
  apply run_snoc in Hs. subst s'.
  assert (Hran' : In (mkEvent Target true (AInvoke arg r0))
                     (trace (run (sched ++ [RunCaller true])))).
  { rewrite run_app. apply exec_trace_mono. exact Hran. }
  destruct (can_finish (run_inv (sched ++ [RunCaller true])))
    as (more & Hdone).
  exists ((sched ++ [RunCaller true]) ++ more).
  rewrite (run_app (sched ++ [RunCaller true]) more).
  split; [exact Hdone|].
  split; [apply exec_no_fault;
          [apply run_inv | apply exec_no_fault;
                           [apply inv_start | reflexivity]]|].
  apply gave_up_after_run; [apply exec_inv, run_inv | exact Hdone | |];
    apply exec_trace_mono; assumption.
Qed.

(** *** The void specialisations: calls of a bound target *)

Lemma step_void_faulted ch (s s' : State Param RetType Mem) :
  step_void call ch s = Next s' -> faulted s' = faulted s.
Proof.
  unfold step_void. destruct ch; repeat case_match; intros; simplify_eq;
    reflexivity.
Qed.

Lemma caller_step_void_advances expired (sh sh' : Shared Param RetType Mem)
  (c c' : CallerSt Param RetType) a :
  caller_step_void call expired sh c = Next (sh', c', a) ->
  (crank (cpc c) < crank (cpc c'))%nat.
Proof.
  unfold caller_step_void, caller_step, caller_at.
  destruct (cpc c); intros H; repeat case_match; simplify_eq; simpl; lia.
Qed.

Lemma target_step_void_advances (sh sh' : Shared Param RetType Mem)
  (t t' : TargetSt Param RetType) a :
  target_step_void call sh t = Next (sh', t', a) ->
  (trank (tpc t) < trank (tpc t'))%nat.
Proof.
  unfold target_step_void, target_step, target_at.
  destruct (tpc t); intros H; repeat case_match; simplify_eq; simpl; lia.
Qed.

Lemma step_void_fuel ch (s s' : State Param RetType Mem) :
  step_void call ch s = Next s' -> (fuel_of s' < fuel_of s)%nat.
Proof.
  unfold step_void, fuel_of. destruct ch.
  - destruct (caller_step_void call expired (shared s) (caller s))
      as [[[sh c] a]| |] eqn:E; try discriminate.
    intros [= <-]. simpl. apply caller_step_void_advances in E.
    pose proof (crank_le (cpc c)). lia.
  - destruct (target_step_void call (shared s) (target s))
      as [[[sh t] a]| |] eqn:E; try discriminate.
    intros [= <-]. simpl. apply target_step_void_advances in E.
    pose proof (trank_le (tpc t)). lia.
Qed.

Lemma exec_void_no_fault sched s :
  InvVoid s -> faulted s = false -> faulted (exec_void call sched s) = false.
Proof.
  revert s. induction sched as [|ch rest IH]; intros s H Hf; simpl;
    [assumption|].
  pose proof (inv_step_void ch H) as Hs.
  destruct (step_void call ch s) eqn:E.
  - apply IH; [assumption|]. apply step_void_faulted in E. congruence.
  - apply IH; assumption.
  - congruence.
Qed.

Lemma inv_progress_void s :
  InvVoid s -> ~ finished s -> exists ch s', step_void call ch s = Next s'.
Proof.
  intros H Hnf. unfold finished in Hnf. states_void s H; simpl in Hnf.
  all: try (exfalso; apply Hnf; split; reflexivity).
  all: clear Hnf Hcalls Hfrees Hwaits.
  all: first
    [ exists RunTarget; eexists; unfold_void; reduce_store;
      rewrite ?Hbound; reduce_store; reflexivity
    | exists (RunCaller false); eexists; unfold_void; reduce_store;
      repeat (branch; reduce_store); reflexivity ].
Qed.

Lemma can_finish_void_fuel n s :
  (fuel_of s <= n)%nat -> InvVoid s ->
  exists sched, finished (exec_void call sched s).
Proof.
  revert s. induction n as [|n IH]; intros s Hn H;
    (destruct (finished_dec s) as [Hf|Hf]; [exists []; exact Hf|]);
    destruct (inv_progress_void H Hf) as (ch & s' & Hs);
    pose proof Hs as Hfuel; apply step_void_fuel in Hfuel; [lia|].
  pose proof (inv_step_void ch H) as Hi. rewrite Hs in Hi.
  destruct (IH s') as [sched Hsched]; [lia | assumption |].
  exists (ch :: sched). simpl. rewrite Hs. exact Hsched.
Qed.

(** X13: a threaded call through a void delegate of a bound target never
    faults; the bound function is called at most once and the clone with
    its message is freed at most once; when both threads have ended there
    was exactly one free and heap, messages and queue are as before the
    call; and from every state both threads can run to their end. *)
Theorem void_call_protocol sched :
  faulted (run_void sched) = false
  /\ (count is_invocation (trace (run_void sched)) <= 1)%nat
  /\ (count is_free (trace (run_void sched)) <= 1)%nat
  /\ (finished (run_void sched) ->
      count is_free (trace (run_void sched)) = 1%nat
      /\ heap (shared (run_void sched)) = h0
      /\ msgs (shared (run_void sched)) = m0
      /\ queue (shared (run_void sched)) = [])
  /\ exists more, finished (exec_void call more (run_void sched)).
Proof.
  split; [apply exec_void_no_fault; [apply inv_start_void | reflexivity]|].
  pose proof (run_inv_void sched) as H.
  split; [|split; [|split]].
  - rewrite (invv_calls H). case_match; lia.
  - rewrite (invv_frees H). case_match; lia.
  - remember (exec_void call sched start) as s eqn:Es; clear Es.
    states_void s H; intros [Hk Hj]; simpl in Hk, Hj;
      try discriminate Hk; try discriminate Hj.
    all: simpl; rewrite ?heap_of_none, ?msgs_of_none; auto.
  - apply (can_finish_void_fuel (n := fuel_of (run_void sched)));
      [lia | exact H].
Qed.

(** X14: a call through a void delegate writes nothing of the delegate but
    its success flag, and returns nothing.  If the wait of the call has
    returned true, the bound function has been called, once, and the
    memory is what that call left; and as long as the function has not
    been called the memory is untouched.  In a call that no other call
    through the same delegate object overlaps (the one caller of
    [exec_void]), a success flag that is true once the wait is over says
    that the wait of this call has returned true. *)
Theorem void_call_result sched :
  self (shared (run_void sched))
  = set_success (IsSuccess (self (shared (run_void sched)))) d0
  /\ (cpc (caller (run_void sched)) = C_Done ->
      result (caller (run_void sched)) = Some None)
  /\ (count is_true_wait (trace (run_void sched)) = 1%nat ->
      count is_invocation (trace (run_void sched)) = 1%nat
      /\ mem (shared (run_void sched)) = mem1)
  /\ (count is_invocation (trace (run_void sched)) = 0%nat ->
      mem (shared (run_void sched)) = mem0)
  /\ (cge 8 (cpc (caller (run_void sched))) = true ->
      IsSuccess (self (shared (run_void sched))) = true ->
      count is_true_wait (trace (run_void sched)) = 1%nat).
Proof.
  pose proof (run_inv_void sched) as H.
  remember (exec_void call sched start) as s eqn:Es; clear Es.
  states_void s H; simpl.
  all: try (destruct Hm as [r Hm]; rewrite Hbound in Hm;
            injection Hm as <- <-).
  all: rewrite Hcalls, Hwaits.
  all: split;
    [first [reflexivity | exact (eq_sym (set_success_same d0))]|].
  all: split; [intros Hk; first [discriminate Hk | reflexivity]|].
  all: split;
    [intros Hw; first [discriminate Hw | split; reflexivity]|].
  all: split; [intros Hn; first [discriminate Hn | reflexivity]|].
  all: intros Hk Hok;
    first [discriminate Hk | discriminate Hok | reflexivity].
Qed.

(** *** Free-function delegates that lock first: calls of a bound target *)

Lemma step_free_faulted ch (s s' : State Param RetType Mem) :
  step_free call ch s = Next s' -> faulted s' = faulted s.
Proof.
  unfold step_free. destruct ch; repeat case_match; intros; simplify_eq;
    reflexivity.
Qed.

Lemma trank_free_le j : (trank_free j <= 10)%nat.
Proof. destruct j; simpl; lia. Qed.

Lemma target_step_free_advances (sh sh' : Shared Param RetType Mem)
  (t t' : TargetSt Param RetType) a :
  target_step_free call sh t = Next (sh', t', a) ->
  (trank_free (tpc t) < trank_free (tpc t'))%nat.
Proof.
  unfold target_step_free, target_step, target_at.
  destruct (tpc t); intros H; repeat case_match; simplify_eq; simpl; lia.
Qed.

Lemma step_free_fuel ch (s s' : State Param RetType Mem) :
  step_free call ch s = Next s' -> (fuel_free s' < fuel_free s)%nat.
Proof.
  unfold step_free, fuel_free. destruct ch.
  - destruct (caller_step call expired (shared s) (caller s))
      as [[[sh c] a]| |] eqn:E; try discriminate.
    intros [= <-]. simpl. apply caller_step_advances in E.
    pose proof (crank_le (cpc c)). lia.
  - destruct (target_step_free call (shared s) (target s))
      as [[[sh t] a]| |] eqn:E; try discriminate.
    intros [= <-]. simpl. apply target_step_free_advances in E.
    pose proof (trank_free_le (tpc t)). lia.
Qed.

Lemma exec_free_no_fault sched s :
  InvFree s -> faulted s = false -> faulted (exec_free call sched s) = false.
Proof.
  revert s. induction sched as [|ch rest IH]; intros s H Hf; simpl;
    [assumption|].
  pose proof (inv_step_free ch H) as Hs.
  destruct (step_free call ch s) eqn:E.
  - apply IH; [assumption|]. apply step_free_faulted in E. congruence.
  - apply IH; assumption.
  - congruence.
Qed.

Lemma inv_progress_free s :
  InvFree s -> ~ finished s -> exists ch s', step_free call ch s = Next s'.
Proof.
  intros H Hnf. unfold finished in Hnf. states_free s H; simpl in Hnf.
  all: try (exfalso; apply Hnf; split; reflexivity).
  all: clear Hnf Hcalls Hfrees Hreads Hunl.
  all: first
    [ exists RunTarget; eexists; unfold_free; reduce_store;
      rewrite ?Hbound; reduce_store; reflexivity
    | exists (RunCaller false); eexists; unfold_free; reduce_store;
      repeat (branch; reduce_store); reflexivity ].
Qed.

Lemma can_finish_free_fuel n s :
  (fuel_free s <= n)%nat -> InvFree s ->
  exists sched, finished (exec_free call sched s).
Proof.
  revert s. induction n as [|n IH]; intros s Hn H;
    (destruct (finished_dec s) as [Hf|Hf]; [exists []; exact Hf|]);
    destruct (inv_progress_free H Hf) as (ch & s' & Hs);
    pose proof Hs as Hfuel; apply step_free_fuel in Hfuel; [lia|].
  pose proof (inv_step_free ch H) as Hi. rewrite Hs in Hi.
  destruct (IH s') as [sched Hsched]; [lia | assumption |].
  exists (ch :: sched). simpl. rewrite Hs. exact Hsched.
Qed.

(** X16: with a [DelegateInvoke] that takes the lock before it reads the
    arguments, a threaded call of a bound target never faults; the bound
    function is called at most once and the clone with its message is
    freed at most once; when both threads have ended there was exactly one
    free and heap, messages and queue are as before the call; and from
    every state both threads can run to their end. *)
Theorem lock_first_protocol sched :
  faulted (run_free sched) = false
  /\ (count is_invocation (trace (run_free sched)) <= 1)%nat
  /\ (count is_free (trace (run_free sched)) <= 1)%nat
  /\ (finished (run_free sched) ->
      count is_free (trace (run_free sched)) = 1%nat
      /\ heap (shared (run_free sched)) = h0
      /\ msgs (shared (run_free sched)) = m0
      /\ queue (shared (run_free sched)) = [])
  /\ exists more, finished (exec_free call more (run_free sched)).
Proof.
  split; [apply exec_free_no_fault; [apply inv_start_free | reflexivity]|].
  pose proof (run_inv_free sched) as H.
  split; [|split; [|split]].
  - rewrite (invf_calls H). case_match; lia.
  - rewrite (invf_frees H). case_match; lia.
  - remember (exec_free call sched start) as s eqn:Es; clear Es.
    states_free s H; intros [Hk Hj]; simpl in Hk, Hj;
      try discriminate Hk; try discriminate Hj.
    all: simpl; rewrite ?heap_of_none, ?msgs_of_none; auto.
  - apply (can_finish_free_fuel (n := fuel_free (run_free sched)));
      [lia | exact H].
Qed.

(** X17: with a [DelegateInvoke] that takes the lock before it reads the
    arguments, in a call that no other call through the same delegate
    object overlaps (the one caller of [exec_free]), once [operator()] has
    returned: if [IsSuccess()] is true, the value returned and
    [GetRetVal()] are the value the bound function computed, the function
    has been called once and the memory is what that call left; if
    [IsSuccess()] is false, the value returned and [GetRetVal()] are the
    old content of the result holder. *)
Theorem lock_first_result sched :
  cpc (caller (run_free sched)) = C_Done ->
  (IsSuccess (self (shared (run_free sched))) = true ->
   result (caller (run_free sched)) = Some (Some r0)
   /\ GetRetVal (self (shared (run_free sched))) = Some r0
   /\ count is_invocation (trace (run_free sched)) = 1%nat
   /\ mem (shared (run_free sched)) = mem1)
  /\ (IsSuccess (self (shared (run_free sched))) = false ->
      result (caller (run_free sched)) = Some (GetRetVal d0)
      /\ GetRetVal (self (shared (run_free sched))) = GetRetVal d0).
Proof.
  pose proof (run_inv_free sched) as H.
  remember (exec_free call sched start) as s eqn:Es; clear Es.
  states_free s H; simpl; intros Hk; try discriminate Hk; clear Hk.
  all: bound_result Hm.
  all: split; intros Hok; try discriminate Hok; repeat split;
    first [reflexivity | assumption].
Qed.

(** *** The void free-function delegate that locks first: calls of a bound
    target *)

Lemma step_free_void_faulted ch (s s' : State Param RetType Mem) :
  step_free_void call ch s = Next s' -> faulted s' = faulted s.
Proof.
  unfold step_free_void. destruct ch; repeat case_match; intros;
    simplify_eq; reflexivity.
Qed.

Lemma target_step_free_void_advances (sh sh' : Shared Param RetType Mem)
  (t t' : TargetSt Param RetType) a :
  target_step_free_void call sh t = Next (sh', t', a) ->
  (trank_free (tpc t) < trank_free (tpc t'))%nat.
Proof.
  unfold target_step_free_void, target_step_void, target_step_free,
    target_step, target_at.
  destruct (tpc t); intros H; repeat case_match; simplify_eq; simpl; lia.
Qed.

Lemma step_free_void_fuel ch (s s' : State Param RetType Mem) :
  step_free_void call ch s = Next s' -> (fuel_free s' < fuel_free s)%nat.
Proof.
  unfold step_free_void, fuel_free. destruct ch.
  - destruct (caller_step_void call expired (shared s) (caller s))
      as [[[sh c] a]| |] eqn:E; try discriminate.
    intros [= <-]. simpl. apply caller_step_void_advances in E.
    pose proof (crank_le (cpc c)). lia.
  - destruct (target_step_free_void call (shared s) (target s))
      as [[[sh t] a]| |] eqn:E; try discriminate.
    intros [= <-]. simpl. apply target_step_free_void_advances in E.
    pose proof (trank_free_le (tpc t)). lia.
Qed.

Lemma exec_free_void_no_fault sched s :
  InvFreeVoid s -> faulted s = false ->
  faulted (exec_free_void call sched s) = false.
Proof.
  revert s. induction sched as [|ch rest IH]; intros s H Hf; simpl;
    [assumption|].
  pose proof (inv_step_free_void ch H) as Hs.
  destruct (step_free_void call ch s) eqn:E.
  - apply IH; [assumption|]. apply step_free_void_faulted in E. congruence.
  - apply IH; assumption.
  - congruence.
Qed.

Lemma inv_progress_free_void s :
  InvFreeVoid s -> ~ finished s ->
  exists ch s', step_free_void call ch s = Next s'.
Proof.
  intros H Hnf. unfold finished in Hnf. states_free_void s H; simpl in Hnf.
  all: try (exfalso; apply Hnf; split; reflexivity).
  all: clear Hnf Hcalls Hfrees Hwaits Hunl.
  all: first
    [ exists RunTarget; eexists; unfold_free_void; reduce_store;
      rewrite ?Hbound; reduce_store; reflexivity
    | exists (RunCaller false); eexists; unfold_free_void; reduce_store;
      repeat (branch; reduce_store); reflexivity ].
Qed.

Lemma can_finish_free_void_fuel n s :
  (fuel_free s <= n)%nat -> InvFreeVoid s ->
  exists sched, finished (exec_free_void call sched s).
Proof.
  revert s. induction n as [|n IH]; intros s Hn H;
    (destruct (finished_dec s) as [Hf|Hf]; [exists []; exact Hf|]);
    destruct (inv_progress_free_void H Hf) as (ch & s' & Hs);
    pose proof Hs as Hfuel; apply step_free_void_fuel in Hfuel; [lia|].
  pose proof (inv_step_free_void ch H) as Hi. rewrite Hs in Hi.
  destruct (IH s') as [sched Hsched]; [lia | assumption |].
  exists (ch :: sched). simpl. rewrite Hs. exact Hsched.
Qed.

(** X19: [DelegateFreeAsyncWait<void(Param1)>], whose [DelegateInvoke]
    takes the lock first and stores no result: a threaded call of a bound
    target never faults and never reads the arguments without the lock;
    the bound function is called at most once and the clone with its
    message is freed at most once; if the wait of the call has returned
    true, the function has been called and the memory is what that call
    left; when both threads have ended there was exactly one
    free and heap, messages and queue are as before the call; and from
    every state both threads can run to their end. *)
Theorem void_lock_first_protocol sched :
  faulted (run_free_void sched) = false
  /\ count is_unlocked_read (trace (run_free_void sched)) = 0%nat
  /\ (count is_invocation (trace (run_free_void sched)) <= 1)%nat
  /\ (count is_free (trace (run_free_void sched)) <= 1)%nat
  /\ (count is_true_wait (trace (run_free_void sched)) = 1%nat ->
      count is_invocation (trace (run_free_void sched)) = 1%nat
      /\ mem (shared (run_free_void sched)) = mem1)
  /\ (finished (run_free_void sched) ->
      count is_free (trace (run_free_void sched)) = 1%nat
      /\ heap (shared (run_free_void sched)) = h0
      /\ msgs (shared (run_free_void sched)) = m0
      /\ queue (shared (run_free_void sched)) = [])
  /\ exists more, finished (exec_free_void call more (run_free_void sched)).
Proof.
  split;
    [apply exec_free_void_no_fault;
       [apply inv_start_free_void | reflexivity]|].
  pose proof (run_inv_free_void sched) as H.
  split; [exact (invfv_unlocked H)|].
  split; [|split; [|split; [|split]]].
  - rewrite (invfv_calls H). case_match; lia.
  - rewrite (invfv_frees H). case_match; lia.
  - remember (exec_free_void call sched start) as s eqn:Es; clear Es.
    states_free_void s H; simpl; rewrite Hwaits; intros Hw;
      try discriminate Hw.
    all: destruct Hm as [r Hm]; rewrite Hbound in Hm;
      injection Hm as <- <-.
    all: split; [assumption | reflexivity].
  - remember (exec_free_void call sched start) as s eqn:Es; clear Es.
    states_free_void s H; intros [Hk Hj]; simpl in Hk, Hj;
      try discriminate Hk; try discriminate Hj.
    all: simpl; rewrite ?heap_of_none, ?msgs_of_none; auto.
  - apply (can_finish_free_void_fuel
             (n := fuel_free (run_free_void sched))); [lia | exact H].
Qed.

End Call.

End Proofs.

(** * The concrete delegate *)

(** C1 at [Demo]: the target thread runs the call while the caller waits;
    the bound function is called once. *)
Lemma at_most_once_witness :
  m_thread Demo.threaded <> 0
  /\ (count is_invocation (trace (exec Demo.square Demo.in_time Demo.start))
      <= 1)%nat.
Proof.
  assert (Ht : m_thread Demo.threaded <> 0) by (vm_compute; discriminate).
  split; [exact Ht|].
  exact (proj1 (at_most_once Demo.square Demo.threaded ∅ ∅ 0 5 Ht
                  Demo.in_time)).
Defined.

(** C2 at [Demo]: the run does not fault and frees at most once. *)
Lemma refcount_protocol_witness :
  m_thread Demo.threaded <> 0
  /\ Demo.square (m_target Demo.threaded) 5 0 = Some (25, 1)
  /\ (count is_free (trace (exec Demo.square Demo.in_time Demo.start))
      <= 1)%nat
  /\ faulted (exec Demo.square Demo.in_time Demo.start) = false.
Proof.
  assert (Ht : m_thread Demo.threaded <> 0) by (vm_compute; discriminate).
  assert (Hb : Demo.square (m_target Demo.threaded) 5 0 = Some (25, 1))
    by (vm_compute; reflexivity).
  split; [exact Ht|]. split; [exact Hb|].
  destruct (refcount_protocol Demo.square Demo.threaded ∅ ∅ 0 5 Ht Hb
              Demo.in_time) as (_ & _ & _ & _ & Hfree & _ & Hnf & _).
  split; [exact Hfree | exact Hnf].
Defined.

(** C3 at [Demo]: [Invoke(5)] on the worker thread returns 25. *)
Lemma success_result_witness :
  m_thread Demo.threaded <> 0
  /\ Demo.square (m_target Demo.threaded) 5 0 = Some (25, 1)
  /\ In (mkEvent Caller false (AWait true))
        (trace (exec Demo.square Demo.in_time Demo.start))
  /\ cpc (caller (exec Demo.square Demo.in_time Demo.start)) = C_Done
  /\ IsSuccess (self (shared (exec Demo.square Demo.in_time Demo.start)))
     = true
  /\ result (caller (exec Demo.square Demo.in_time Demo.start))
     = Some (Some 25).
Proof.
  assert (Ht : m_thread Demo.threaded <> 0) by (vm_compute; discriminate).
  assert (Hb : Demo.square (m_target Demo.threaded) 5 0 = Some (25, 1))
    by (vm_compute; reflexivity).
  assert (Hw : In (mkEvent Caller false (AWait true))
                  (trace (exec Demo.square Demo.in_time Demo.start)))
    by (vm_compute; tauto).
  assert (Hk : cpc (caller (exec Demo.square Demo.in_time Demo.start))
               = C_Done) by (vm_compute; reflexivity).
  split; [exact Ht|]. split; [exact Hb|]. split; [exact Hw|].
  split; [exact Hk|].
  destruct (success_result Demo.square Demo.threaded ∅ ∅ 0 5 Ht Hb
              Demo.in_time Hw Hk) as (Hs & _ & Hr & _).
  split; [exact Hs | exact Hr].
Defined.

(** C3 as the specification words it fails: two threads call the same
    delegate with 2 and with 3 and both waits return true; the second
    caller copies its result 9 into the result holder after the first has
    copied its 4, and the first call then returns 9, where the callable
    computes 4 for its argument. *)
Lemma success_not_own_result :
  ~ success_gives_own_result Demo.square Demo.threaded 0 2 3.
Proof.
  intros H.
  assert (E : exists s1 s,
             exec2 Demo.square Demo.overlapped_waited
               (init2 Demo.threaded 0 2 3) = Some s1
             /\ cpc (callerA s1) = C_Copy
             /\ exec2 Demo.square Demo.overlapped_rest s1 = Some s
             /\ cpc (callerA s) = C_Done
             /\ result (callerA s) = Some (Some 9)).
  { eexists. eexists. split; [vm_compute; reflexivity|].
    split; [vm_compute; reflexivity|].
    split; [vm_compute; reflexivity|].
    split; vm_compute; reflexivity. }
  assert (Hc : Demo.square (m_target Demo.threaded) 2 0 = Some (4, 1))
    by (vm_compute; reflexivity).
  destruct E as (s1 & s & E1 & Hk1 & E2 & Hk & Hr).
  destruct (H _ _ _ _ _ _ _ E1 Hk1 E2 Hk Hc) as (_ & _ & Hr').
  rewrite Hr in Hr'. discriminate Hr'.
Qed.



(** C5 at [Demo]: [square] bound with no thread, [Invoke(5)] returns 25 at
    once. *)
Lemma direct_call_witness :
  m_thread Demo.direct = 0
  /\ Demo.square (m_target Demo.direct) 5 0 = Some (25, 1)
  /\ result (caller (exec Demo.square [RunCaller false] Demo.start_direct))
     = Some (Some 25).
Proof.
  assert (Hd : m_thread Demo.direct = 0) by (vm_compute; reflexivity).
  assert (Hc : Demo.square (m_target Demo.direct) 5 0 = Some (25, 1))
    by (vm_compute; reflexivity).
  split; [exact Hd|]. split; [exact Hc|].
  exact (f_equal (fun s => result (caller s))
           (proj1 (direct_call Demo.square Demo.direct ∅ ∅ 0 5 Hd Hc)
              false [])).
Defined.

(** C6 at [Demo]: the target thread has stored 25 and is about to raise
    the signal; its next step adds one to the semaphore of the clone. *)
Lemma delegate_invoke_order_witness :
  m_thread Demo.threaded <> 0
  /\ Demo.square (m_target Demo.threaded) 5 0 = Some (25, 1)
  /\ tpc (target (exec Demo.square Demo.about_to_signal Demo.start))
     = T_Signal
  /\ exists s' d d',
       step Demo.square RunTarget
         (exec Demo.square Demo.about_to_signal Demo.start) = Next s'
       /\ heap (shared (exec Demo.square Demo.about_to_signal Demo.start))
          !! this (target (exec Demo.square Demo.about_to_signal
                             Demo.start)) = Some d
       /\ heap (shared s') !! this (target s') = Some d'
       /\ sem_count (m_sema d') = S (sem_count (m_sema d))
       /\ tpc (target s') = T_Dec.
Proof.
  assert (Ht : m_thread Demo.threaded <> 0) by (vm_compute; discriminate).
  assert (Hb : Demo.square (m_target Demo.threaded) 5 0 = Some (25, 1))
    by (vm_compute; reflexivity).
  assert (Hk : tpc (target (exec Demo.square Demo.about_to_signal
                              Demo.start)) = T_Signal)
    by (vm_compute; reflexivity).
  split; [exact Ht|]. split; [exact Hb|]. split; [exact Hk|].
  destruct (delegate_invoke_order Demo.square Demo.threaded ∅ ∅ 0 5 Ht Hb
              Demo.about_to_signal)
    as (_ & _ & _ & _ & _ & _ & Hsig & _).
  exact (Hsig Hk).
Defined.

(** C7 at [Demo]: the two threads are never both inside the lock. *)
Lemma lock_protocol_witness :
  m_thread Demo.threaded <> 0
  /\ c_in_lock (cpc (caller (exec Demo.square Demo.in_time Demo.start)))
     && t_in_lock (tpc (target (exec Demo.square Demo.in_time Demo.start)))
     = false.
Proof.
  assert (Ht : m_thread Demo.threaded <> 0) by (vm_compute; discriminate).
  split; [exact Ht|].
  exact (proj1 (proj2 (lock_protocol Demo.square Demo.threaded ∅ ∅ 0 5 Ht
                         Demo.in_time))).
Defined.

(** C7 as the specification words it fails: in the run [Demo.in_time] the
    caller sets the count of the clone to 2, waits on its semaphore and
    reads its result slot without holding the lock. *)
Lemma lock_discipline_fails :
  ~ lock_discipline (trace (exec Demo.square Demo.in_time Demo.start)).
Proof.
  intros [H _].
  specialize (H (mkEvent Caller false (ACopy (Some 25)))).
  assert (Hin : In (mkEvent Caller false (ACopy (Some 25)))
                   (trace (exec Demo.square Demo.in_time Demo.start)))
    by (vm_compute; tauto).
  specialize (H Hin eq_refl). discriminate H.
Qed.

(** C8 as the specification words it fails: two delegates bound to the same
    object and function for different target threads are not equal. *)
Lemma equality_not_structural :
  ~ structural_equality Demo.threaded Demo.on_other_thread.
Proof.
  unfold structural_equality. intros [_ H].
  specialize (H eq_refl). discriminate H.
Qed.



(** C10 at [Demo]: the delegate keeps its target thread over the call. *)
Lemma invoke_frame_witness :
  m_thread Demo.threaded <> 0
  /\ m_thread (self (shared (exec Demo.square Demo.in_time Demo.start)))
     = m_thread Demo.threaded.
Proof.
  assert (Ht : m_thread Demo.threaded <> 0) by (vm_compute; discriminate).
  split; [exact Ht|].
  exact (proj1 (invoke_frame Demo.square Demo.threaded ∅ ∅ 0 5 Ht
                  Demo.in_time)).
Defined.

(** * The extras at the concrete delegate *)

(** X1 at [Demo]: equality goes from the delegate over its clone to the
    clone of the clone. *)
Lemma equality_equivalence_witness :
  Delegate_eqb Demo.threaded (Some (Clone Demo.threaded)) = true
  /\ Delegate_eqb (Clone Demo.threaded)
       (Some (Clone (Clone Demo.threaded))) = true
  /\ Delegate_eqb Demo.threaded (Some (Clone (Clone Demo.threaded))) = true.
Proof.
  assert (H1 : Delegate_eqb Demo.threaded (Some (Clone Demo.threaded))
               = true) by (vm_compute; reflexivity).
  assert (H2 : Delegate_eqb (Clone Demo.threaded)
                 (Some (Clone (Clone Demo.threaded))) = true)
    by (vm_compute; reflexivity).
  split; [exact H1|]. split; [exact H2|].
  exact (proj2 (proj2 (equality_equivalence Demo.threaded
                         (Clone Demo.threaded)
                         (Clone (Clone Demo.threaded)))) H1 H2).
Defined.

(** X3 at [Demo]: the direct delegate is assigned the threaded one. *)
Lemma assignment_spec_witness :
  (false = true -> Demo.threaded = Demo.direct)
  /\ Delegate_eqb (assign false Demo.threaded Demo.direct)
       (Some Demo.threaded) = true.
Proof.
  assert (H : false = true -> Demo.threaded = Demo.direct)
    by (intros E; discriminate E).
  split; [exact H|].
  exact (proj1 (assignment_spec H)).
Defined.

(** X5 at [Demo]: [Invoke(5)] returns 25 and [IsSuccess()] stays false. *)
Lemma direct_call_records_nothing_witness :
  m_thread Demo.direct = 0
  /\ Demo.square (m_target Demo.direct) 5 0 = Some (25, 1)
  /\ IsSuccess
       (self (shared (exec Demo.square [RunCaller false]
                        (init Demo.direct ∅ ∅ 0 5))))
     = false.
Proof.
  assert (Hd : m_thread Demo.direct = 0) by (vm_compute; reflexivity).
  assert (Hc : Demo.square (m_target Demo.direct) 5 0 = Some (25, 1))
    by (vm_compute; reflexivity).
  split; [exact Hd|]. split; [exact Hc|].
  exact (proj1 (proj2 (direct_call_records_nothing Demo.square Demo.direct
                         ∅ ∅ 0 5 Hd Hc false []))).
Defined.

(** X6 at [Demo]: the patient delegate's call has returned, with success. *)
Lemma infinite_wait_witness :
  m_thread Demo.patient <> 0
  /\ Demo.square (m_target Demo.patient) 5 0 = Some (25, 1)
  /\ m_timeout Demo.patient = WAIT_INFINITE
  /\ cpc (caller (exec Demo.square Demo.in_time
                    (init Demo.patient ∅ ∅ 0 5))) = C_Done
  /\ IsSuccess (self (shared (exec Demo.square Demo.in_time
                                (init Demo.patient ∅ ∅ 0 5)))) = true.
Proof.
  assert (Ht : m_thread Demo.patient <> 0) by (vm_compute; discriminate).
  assert (Hb : Demo.square (m_target Demo.patient) 5 0 = Some (25, 1))
    by (vm_compute; reflexivity).
  assert (Hi : m_timeout Demo.patient = WAIT_INFINITE)
    by (vm_compute; reflexivity).
  assert (Hk : cpc (caller (exec Demo.square Demo.in_time
                              (init Demo.patient ∅ ∅ 0 5))) = C_Done)
    by (vm_compute; reflexivity).
  split; [exact Ht|]. split; [exact Hb|]. split; [exact Hi|].
  split; [exact Hk|].
  destruct (proj2 (infinite_wait Demo.square Demo.patient ∅ ∅ 0 5 Ht Hb
                     Demo.in_time Hi) Hk) as (_ & _ & _ & _ & Hs & _).
  exact Hs.
Defined.

(** X7 at [Demo]: after the call the heap of clones is empty again. *)
Lemma store_restored_witness :
  m_thread Demo.threaded <> 0
  /\ finished (exec Demo.square Demo.in_time Demo.start)
  /\ heap (shared (exec Demo.square Demo.in_time Demo.start)) = ∅.
Proof.
  assert (Ht : m_thread Demo.threaded <> 0) by (vm_compute; discriminate).
  assert (Hf : finished (exec Demo.square Demo.in_time Demo.start))
    by (split; vm_compute; reflexivity).
  split; [exact Ht|]. split; [exact Hf|].
  exact (proj1 (store_restored Demo.square Demo.threaded ∅ ∅ 0 5 Ht
                  Demo.in_time Hf)).
Defined.

(** X8 at [Demo]: the target thread came too late and frees; the function
    was not called. *)
Lemma freeing_thread_witness :
  m_thread Demo.threaded <> 0
  /\ In (mkEvent Target false AFree)
        (trace (exec Demo.square Demo.too_late Demo.start))
  /\ count is_invocation (trace (exec Demo.square Demo.too_late Demo.start))
     = 0%nat.
Proof.
  assert (Ht : m_thread Demo.threaded <> 0) by (vm_compute; discriminate).
  assert (Hf : In (mkEvent Target false AFree)
                  (trace (exec Demo.square Demo.too_late Demo.start)))
    by (vm_compute; tauto).
  split; [exact Ht|]. split; [exact Hf|].
  exact (proj1 (proj1 (proj2 (freeing_thread Demo.square Demo.threaded ∅ ∅
                                0 5 Ht Demo.too_late)) Hf)).
Defined.

(** X9 at [Demo]: after the call the delegate still equals what it was. *)
Lemma call_keeps_equality_witness :
  m_thread Demo.threaded <> 0
  /\ Delegate_eqb (self (shared (exec Demo.square Demo.in_time Demo.start)))
       (Some Demo.threaded) = true.
Proof.
  assert (Ht : m_thread Demo.threaded <> 0) by (vm_compute; discriminate).
  split; [exact Ht|].
  exact (proj1 (call_keeps_equality Demo.square Demo.threaded ∅ ∅ 0 5 Ht
                  Demo.in_time)).
Defined.

(** X10 at [Demo]: the target thread is about to call the function. *)
Lemma caller_waits_for_function_witness :
  m_thread Demo.threaded <> 0
  /\ tge 4 (tpc (target (exec Demo.square Demo.function_running Demo.start)))
     = true
  /\ tge 7 (tpc (target (exec Demo.square Demo.function_running Demo.start)))
     = false
  /\ cge 9 (cpc (caller (exec Demo.square Demo.function_running Demo.start)))
     = false.
Proof.
  assert (Ht : m_thread Demo.threaded <> 0) by (vm_compute; discriminate).
  assert (H4 : tge 4 (tpc (target (exec Demo.square Demo.function_running
                                     Demo.start))) = true)
    by (vm_compute; reflexivity).
  assert (H7 : tge 7 (tpc (target (exec Demo.square Demo.function_running
                                     Demo.start))) = false)
    by (vm_compute; reflexivity).
  split; [exact Ht|]. split; [exact H4|]. split; [exact H7|].
  exact (proj1 (caller_waits_for_function Demo.square Demo.threaded ∅ ∅ 0 5
                  Ht Demo.function_running true H4 H7)).
Defined.

(** X11 at [Demo]: one call of [square] has been counted. *)
Lemma memory_effect_witness :
  m_thread Demo.threaded <> 0
  /\ Demo.square (m_target Demo.threaded) 5 0 = Some (25, 1)
  /\ count is_invocation (trace (exec Demo.square Demo.in_time Demo.start))
     = 1%nat
  /\ mem (shared (exec Demo.square Demo.in_time Demo.start)) = 1.
Proof.
  assert (Ht : m_thread Demo.threaded <> 0) by (vm_compute; discriminate).
  assert (Hb : Demo.square (m_target Demo.threaded) 5 0 = Some (25, 1))
    by (vm_compute; reflexivity).
  assert (Hc : count is_invocation
                 (trace (exec Demo.square Demo.in_time Demo.start)) = 1%nat)
    by (vm_compute; reflexivity).
  split; [exact Ht|]. split; [exact Hb|]. split; [exact Hc|].
  exact (proj1 (proj2 (memory_effect Demo.square Demo.threaded ∅ ∅ 0 5 Ht Hb
                         Demo.in_time) Hc)).
Defined.

(** X12 at [Demo]: with a timeout of 50 there is such a run. *)
Lemma timeout_does_not_cancel_witness :
  m_thread Demo.threaded <> 0
  /\ Demo.square (m_target Demo.threaded) 5 0 = Some (25, 1)
  /\ m_timeout Demo.threaded <> WAIT_INFINITE
  /\ exists sched,
       finished (exec Demo.square sched Demo.start)
       /\ faulted (exec Demo.square sched Demo.start) = false
       /\ IsSuccess (self (shared (exec Demo.square sched Demo.start)))
          = false
       /\ result (caller (exec Demo.square sched Demo.start))
          = Some (GetRetVal Demo.threaded)
       /\ count is_invocation (trace (exec Demo.square sched Demo.start))
          = 1%nat
       /\ mem (shared (exec Demo.square sched Demo.start)) = 1.
Proof.
  assert (Ht : m_thread Demo.threaded <> 0) by (vm_compute; discriminate).
  assert (Hb : Demo.square (m_target Demo.threaded) 5 0 = Some (25, 1))
    by (vm_compute; reflexivity).
  assert (Hf : m_timeout Demo.threaded <> WAIT_INFINITE)
    by (vm_compute; discriminate).
  split; [exact Ht|]. split; [exact Hb|]. split; [exact Hf|].
  exact (timeout_does_not_cancel Demo.square Demo.threaded ∅ ∅ 0 5 Ht Hb Hf).
Defined.

(** X13 at [Demo]: the listener's call never faults. *)
Lemma void_call_protocol_witness :
  m_thread Demo.listener <> 0
  /\ Demo.notify (m_target Demo.listener) 5 0 = Some (tt, 5)
  /\ faulted (exec_void Demo.notify Demo.in_time
                (init Demo.listener ∅ ∅ 0 5)) = false.
Proof.
  assert (Ht : m_thread Demo.listener <> 0) by (vm_compute; discriminate).
  assert (Hb : Demo.notify (m_target Demo.listener) 5 0 = Some (tt, 5))
    by (vm_compute; reflexivity).
  split; [exact Ht|]. split; [exact Hb|].
  exact (proj1 (void_call_protocol Demo.notify Demo.listener ∅ ∅ 0 5 Ht Hb
                  Demo.in_time)).
Defined.

(** X14 at [Demo]: the wait of the listener's call has returned true; the
    function has added 5. *)
Lemma void_call_result_witness :
  m_thread Demo.listener <> 0
  /\ Demo.notify (m_target Demo.listener) 5 0 = Some (tt, 5)
  /\ count is_true_wait
       (trace (exec_void Demo.notify Demo.in_time
                 (init Demo.listener ∅ ∅ 0 5))) = 1%nat
  /\ mem (shared (exec_void Demo.notify Demo.in_time
                    (init Demo.listener ∅ ∅ 0 5))) = 5.
Proof.
  assert (Ht : m_thread Demo.listener <> 0) by (vm_compute; discriminate).
  assert (Hb : Demo.notify (m_target Demo.listener) 5 0 = Some (tt, 5))
    by (vm_compute; reflexivity).
  assert (Hw : count is_true_wait
                 (trace (exec_void Demo.notify Demo.in_time
                           (init Demo.listener ∅ ∅ 0 5))) = 1%nat)
    by (vm_compute; reflexivity).
  split; [exact Ht|]. split; [exact Hb|]. split; [exact Hw|].
  exact (proj2 (proj1 (proj2 (proj2 (void_call_result Demo.notify
                                       Demo.listener ∅ ∅ 0 5 Ht Hb
                                       Demo.in_time))) Hw)).
Defined.

(** X15 at [Demo]: the listener with no thread is called directly. *)
Lemma void_direct_call_witness :
  m_thread Demo.listener_direct = 0
  /\ Demo.notify (m_target Demo.listener_direct) 5 0 = Some (tt, 5)
  /\ exec_void Demo.notify [RunCaller false]
       (init Demo.listener_direct ∅ ∅ 0 5)
     = direct_done_void Demo.listener_direct ∅ ∅ 5 tt 5.
Proof.
  assert (Hd : m_thread Demo.listener_direct = 0)
    by (vm_compute; reflexivity).
  assert (Hc : Demo.notify (m_target Demo.listener_direct) 5 0
               = Some (tt, 5)) by (vm_compute; reflexivity).
  split; [exact Hd|]. split; [exact Hc|].
  exact (proj1 (void_direct_call Demo.notify Demo.listener_direct ∅ ∅ 0 5
                  Hd Hc) false []).
Defined.

(** X16 at [Demo]: the call of the free function never faults. *)
Lemma lock_first_protocol_witness :
  m_thread Demo.free_square <> 0
  /\ Demo.square (m_target Demo.free_square) 5 0 = Some (25, 1)
  /\ faulted (exec_free Demo.square Demo.in_time
                (init Demo.free_square ∅ ∅ 0 5)) = false.
Proof.
  assert (Ht : m_thread Demo.free_square <> 0) by (vm_compute; discriminate).
  assert (Hb : Demo.square (m_target Demo.free_square) 5 0 = Some (25, 1))
    by (vm_compute; reflexivity).
  split; [exact Ht|]. split; [exact Hb|].
  exact (proj1 (lock_first_protocol Demo.square Demo.free_square ∅ ∅ 0 5
                  Ht Hb Demo.in_time)).
Defined.

(** X17 at [Demo]: the call of the free function returns 25. *)
Lemma lock_first_result_witness :
  m_thread Demo.free_square <> 0
  /\ Demo.square (m_target Demo.free_square) 5 0 = Some (25, 1)
  /\ cpc (caller (exec_free Demo.square Demo.in_time
                    (init Demo.free_square ∅ ∅ 0 5))) = C_Done
  /\ IsSuccess (self (shared (exec_free Demo.square Demo.in_time
                                (init Demo.free_square ∅ ∅ 0 5)))) = true
  /\ result (caller (exec_free Demo.square Demo.in_time
                       (init Demo.free_square ∅ ∅ 0 5))) = Some (Some 25).
Proof.
  assert (Ht : m_thread Demo.free_square <> 0) by (vm_compute; discriminate).
  assert (Hb : Demo.square (m_target Demo.free_square) 5 0 = Some (25, 1))
    by (vm_compute; reflexivity).
  assert (Hk : cpc (caller (exec_free Demo.square Demo.in_time
                              (init Demo.free_square ∅ ∅ 0 5))) = C_Done)
    by (vm_compute; reflexivity).
  assert (Hok : IsSuccess (self (shared (exec_free Demo.square Demo.in_time
                                          (init Demo.free_square ∅ ∅ 0 5))))
                = true)
    by (vm_compute; reflexivity).
  split; [exact Ht|]. split; [exact Hb|]. split; [exact Hk|].
  split; [exact Hok|].
  exact (proj1 (proj1 (lock_first_result Demo.square Demo.free_square ∅ ∅ 0
                         5 Ht Hb Demo.in_time Hk) Hok)).
Defined.

(** X18 at [Demo]: the free function's arguments are not read without the
    lock. *)
Lemma argument_read_under_lock_witness :
  m_thread Demo.free_square <> 0
  /\ count is_unlocked_read
       (trace (exec_free Demo.square Demo.in_time
                 (init Demo.free_square ∅ ∅ 0 5))) = 0%nat.
Proof.
  assert (Ht : m_thread Demo.free_square <> 0) by (vm_compute; discriminate).
  split; [exact Ht|].
  exact (proj1 (proj2 (argument_read_under_lock Demo.square Demo.free_square
                         ∅ ∅ 0 5 Ht Demo.in_time))).
Defined.

(** X19 at [Demo]: the listener, served by a [DelegateInvoke] that locks
    first. *)
Lemma void_lock_first_protocol_witness :
  m_thread Demo.listener <> 0
  /\ Demo.notify (m_target Demo.listener) 5 0 = Some (tt, 5)
  /\ faulted (exec_free_void Demo.notify Demo.in_time
                (init Demo.listener ∅ ∅ 0 5)) = false.
Proof.
  assert (Ht : m_thread Demo.listener <> 0) by (vm_compute; discriminate).
  assert (Hb : Demo.notify (m_target Demo.listener) 5 0 = Some (tt, 5))
    by (vm_compute; reflexivity).
  split; [exact Ht|]. split; [exact Hb|].
  exact (proj1 (void_lock_first_protocol Demo.notify Demo.listener ∅ ∅ 0 5
                  Ht Hb Demo.in_time)).
Defined.
